(** * The alert-block transform of themes/cactus/scripts/alerts.js

    The script registers one [after_post_render] filter.  The filter rewrites
    the rendered HTML of a post with a single call of
    [String.prototype.replace], driven by a global regular expression and a
    replacer function that looks the captured tag up in [alertConfig] and
    re-wraps the captured body, one paragraph per [<br>]-separated line.

    The development follows the script:
    - JavaScript strings are sequences of UTF-16 code units ([list N]);
    - the regular expression literal is a term of a small regular-expression
      syntax, run by a backtracking matcher in continuation-passing style
      (priority of alternatives, greedy and lazy repetition, numbered
      capture groups), next to its declarative language;
    - [exec], global [replace], [split], [join] follow the ECMAScript
      algorithms for the cases the script uses;
    - the document handed to the filter lives in a heap of objects, since the
      filter assigns to a field of its argument and returns the argument. *)

From Stdlib Require Import NArith List String Ascii Lia.
From stdpp Require Import base option numbers list gmap.

Local Open Scope N_scope.

(** ** JavaScript strings *)

(** A string is a sequence of 16-bit code units.  Nothing below depends on
    the bound, so code units are plain [N]. *)
Abbreviation char := N (only parsing).
Abbreviation jsstring := (list N) (only parsing).

(** The code units of an ASCII literal. *)
Definition js (s : string) : jsstring :=
  map N_of_ascii (list_ascii_of_string s).

(** The double quote, written as a code unit. *)
Definition dquote : char := 34.

(** [s.startsWith(p)], as used by every matcher below. *)
Fixpoint starts_with (p s : jsstring) : bool :=
  match p, s with
  | [], _ => true
  | _ :: _, [] => false
  | a :: p', b :: s' => (a =? b) && starts_with p' s'
  end.

(** First occurrence of [sep] in [s], scanning from the left: the text before
    it and the text after it ([String.prototype.indexOf], returning the two
    sides instead of the index). *)
Fixpoint index_of (sep s : jsstring) : option (jsstring * jsstring) :=
  if starts_with sep s then Some ([], drop (length sep) s)
  else match s with
       | [] => None
       | c :: s' => (λ ab, (c :: ab.1, ab.2)) <$> index_of sep s'
       end.

(** [s.split(sep)] for a non-empty string separator and no limit: cut at each
    occurrence found from the left, resuming behind it; the text after the
    last occurrence is the last element, so the array is never empty.  Each
    round consumes at least [length sep] code units: [length s] rounds of
    fuel are enough (lemma [split_unfold]). *)
Fixpoint split_loop (fuel : nat) (sep s : jsstring) : list jsstring :=
  match index_of sep s with
  | None => [s]
  | Some (a, b) =>
      match fuel with
      | O => [s]
      | S fuel' => a :: split_loop fuel' sep b
      end
  end.

Definition split (sep s : jsstring) : list jsstring :=
  split_loop (length s) sep s.

(** [arr.join(sep)] on an array of strings. *)
Fixpoint join (sep : jsstring) (arr : list jsstring) : jsstring :=
  match arr with
  | [] => []
  | [x] => x
  | x :: arr' => x ++ sep ++ join sep arr'
  end.

(** ** Completions: a value, or a thrown TypeError *)

Inductive error := TypeError.

Inductive completion (A : Type) :=
| Normal (a : A)
| Throw (e : error).
Arguments Normal {A} a.
Arguments Throw {A} e.

#[global] Instance completion_ret : MRet completion := λ A a, Normal a.
#[global] Instance completion_bind : MBind completion := λ A B f m,
  match m with
  | Normal a => f a
  | Throw e => Throw e
  end.

(** ** Regular expressions *)

Module RegExp.

(** Members of a character class: a single code unit, or the escape \s. *)
Inductive class_atom :=
| ClassChar (c : char)
| ClassSpace.

Record char_class := CharClass { negated : bool; atoms : list class_atom }.

(** ECMAScript WhiteSpace and LineTerminator code points: what \s matches. *)
Definition is_white_space (c : char) : bool :=
  (c =? 0x9) || (c =? 0xB) || (c =? 0xC) || (c =? 0x20) || (c =? 0xA0)
  || (c =? 0x1680) || ((0x2000 <=? c) && (c <=? 0x200A))
  || (c =? 0x202F) || (c =? 0x205F) || (c =? 0x3000) || (c =? 0xFEFF).

Definition is_line_terminator (c : char) : bool :=
  (c =? 0xA) || (c =? 0xD) || (c =? 0x2028) || (c =? 0x2029).

Definition atom_matches (c : char) (a : class_atom) : bool :=
  match a with
  | ClassChar c' => c =? c'
  | ClassSpace => is_white_space c || is_line_terminator c
  end.

Definition class_matches (cc : char_class) (c : char) : bool :=
  xorb (negated cc) (existsb (atom_matches c) (atoms cc)).

(** The syntax the script's pattern needs.  Repetition is over a character
    class, which is all the pattern repeats; [greedy = false] is the lazy
    star.  Groups are numbered as the pattern numbers them. *)
Inductive regexp :=
| REmpty
| RChar (c : char)
| RClass (cc : char_class)
| RCat (r1 r2 : regexp)
| RAlt (r1 r2 : regexp)
| RStar (greedy : bool) (cc : char_class)
| RGroup (n : nat) (r : regexp).

(** A literal run of characters. *)
Fixpoint lit (s : jsstring) : regexp :=
  match s with
  | [] => REmpty
  | c :: s' => RCat (RChar c) (lit s')
  end.

(** [r1|r2|...|rn], first alternative first. *)
Fixpoint disjunction (rs : list regexp) : regexp :=
  match rs with
  | [] => RClass (CharClass false [])
  | [r] => r
  | r :: rs' => RAlt r (disjunction rs')
  end.

(** The declarative reading: the strings a pattern can match as a whole. *)
Inductive matches : regexp → jsstring → Prop :=
| matches_empty : matches REmpty []
| matches_char c : matches (RChar c) [c]
| matches_class cc c :
    class_matches cc c = true → matches (RClass cc) [c]
| matches_cat r1 r2 u v :
    matches r1 u → matches r2 v → matches (RCat r1 r2) (u ++ v)
| matches_alt_l r1 r2 u : matches r1 u → matches (RAlt r1 r2) u
| matches_alt_r r1 r2 u : matches r2 u → matches (RAlt r1 r2) u
| matches_star g cc u :
    Forall (λ c, class_matches cc c = true) u → matches (RStar g cc) u
| matches_group n r u : matches r u → matches (RGroup n r) u.

(** The state of a match: the captures so far and the input still to read.
    A continuation is the rest of the pattern; [None] is failure, which
    makes the caller try its next choice. *)
Abbreviation captures := (gmap nat (list N)) (only parsing).
Abbreviation outcome := (option (gmap nat (list N) * list N)) (only parsing).

(** Greedy star: take one more character if the class allows it and the
    rest of the pattern then succeeds; otherwise stop here. *)
Fixpoint star_greedy (cc : char_class) (s : jsstring)
    (k : jsstring → outcome) : outcome :=
  match s with
  | c :: s' =>
      if class_matches cc c then
        match star_greedy cc s' k with
        | Some res => Some res
        | None => k s
        end
      else k s
  | [] => k []
  end.

(** Lazy star: stop here if the rest of the pattern succeeds; otherwise
    take one more character. *)
Fixpoint star_lazy (cc : char_class) (s : jsstring)
    (k : jsstring → outcome) : outcome :=
  match k s with
  | Some res => Some res
  | None =>
      match s with
      | c :: s' => if class_matches cc c then star_lazy cc s' k else None
      | [] => None
      end
  end.

(** The backtracking matcher. *)
Fixpoint run (r : regexp) (s : jsstring) (caps : captures)
    (k : jsstring → captures → outcome) : outcome :=
  match r with
  | REmpty => k s caps
  | RChar c =>
      match s with
      | x :: s' => if x =? c then k s' caps else None
      | [] => None
      end
  | RClass cc =>
      match s with
      | x :: s' => if class_matches cc x then k s' caps else None
      | [] => None
      end
  | RCat r1 r2 => run r1 s caps (λ s' caps', run r2 s' caps' k)
  | RAlt r1 r2 =>
      match run r1 s caps k with
      | Some res => Some res
      | None => run r2 s caps k
      end
  | RStar true cc => star_greedy cc s (λ s', k s' caps)
  | RStar false cc => star_lazy cc s (λ s', k s' caps)
  | RGroup n r' =>
      run r' s caps
        (λ s' caps', k s' (<[n := take (length s - length s') s]> caps'))
  end.

(** A match that starts at the first character of [s]: the captures, group
    0 being the whole matched text, and the input behind the match. *)
Definition match_here (r : regexp) (s : jsstring) : outcome :=
  run (RGroup 0 r) s ∅ (λ s' caps, Some (caps, s')).

(** The leftmost match in [s]: the text before it, its captures, and the
    text behind it (RegExpBuiltinExec without the sticky flag). *)
Fixpoint exec (r : regexp) (s : jsstring)
    : option (jsstring * captures * jsstring) :=
  match match_here r s with
  | Some (caps, rest) => Some ([], caps, rest)
  | None =>
      match s with
      | [] => None
      | c :: s' => (λ m, (c :: m.1.1, m.1.2, m.2)) <$> exec r s'
      end
  end.

(** [s.replace(r, f)] for a global pattern [r] and a replacer function [f]:
    every match found from the left is replaced by what [f] returns for its
    captures, the text between matches is copied, and the search resumes
    behind the match; after an empty match it resumes one code unit
    further on, copying that unit.  The search starts at index 0 on every
    call ([lastIndex] is reset), so the shared pattern object carries no
    state from one call to the next.  [S (length s)] rounds of fuel are
    enough (lemma [replace_unfold]). *)
Fixpoint replace_loop (fuel : nat) (r : regexp)
    (f : captures → completion jsstring) (s : jsstring)
    : completion jsstring :=
  match exec r s with
  | None => Normal s
  | Some (pre, caps, rest) =>
      match fuel with
      | O => Normal s
      | S fuel' =>
          out ← f caps;
          match caps !! 0%nat, rest with
          | Some [], [] => Normal (pre ++ out)
          | Some [], c :: rest' =>
              tl ← replace_loop fuel' r f rest';
              Normal (pre ++ out ++ c :: tl)
          | _, _ =>
              tl ← replace_loop fuel' r f rest;
              Normal (pre ++ out ++ tl)
          end
      end
  end.

Definition replace (r : regexp) (f : captures → completion jsstring)
    (s : jsstring) : completion jsstring :=
  replace_loop (S (length s)) r f s.

End RegExp.

(** ** The script: themes/cactus/scripts/alerts.js *)

Import RegExp.

(** The class [[\n|\s]]: a newline, a vertical bar, or anything \s matches. *)
Definition gap_class : char_class :=
  CharClass false [ClassChar 0xA; ClassChar 0x7C; ClassSpace].

(** The class [[^]]: any code unit, line terminators included. *)
Definition any_class : char_class := CharClass true [].

(** The alternatives of the second group, in the order of the pattern. *)
Definition pattern_tags : list jsstring :=
  [js "NOTE"; js "IMPORTANT"; js "WARNING"; js "TIP"; js "CAUTION"].

(** [const regex =
      /(<blockquote>[\n|\s]*<p>\[!)(NOTE|IMPORTANT|WARNING|TIP|CAUTION)\]([^]*?)<\/p>[\n|\s]*<\/blockquote>/gm]
    The flag [g] is the loop of [replace]; [m] only changes the anchors, and
    the pattern has none. *)
Definition regex : regexp :=
  RCat (RGroup 1 (RCat (lit (js "<blockquote>"))
                       (RCat (RStar true gap_class) (lit (js "<p>[!")))))
  (RCat (RGroup 2 (disjunction (lit <$> pattern_tags)))
  (RCat (RChar 0x5D)
  (RCat (RGroup 3 (RStar false any_class))
  (RCat (lit (js "</p>"))
  (RCat (RStar true gap_class)
        (lit (js "</blockquote>"))))))).

(** One entry of the transformation rules. *)
Record alert_entry := AlertEntry { className : jsstring; ja : jsstring }.

(** [<ion-icon name="ICON"></ion-icon> TEXT] *)
Definition icon_label (icon text : string) : jsstring :=
  js "<ion-icon name=" ++ [dquote] ++ js icon ++ [dquote]
  ++ js "></ion-icon> " ++ js text.

(** [const alertConfig = { "NOTE": {...}, "TIP": {...}, ... }]: the own
    properties of the object, keyed by tag. *)
Definition alertConfig : gmap (list N) alert_entry :=
  <[js "NOTE" := AlertEntry (js "is-info")
                   (icon_label "alert-circle-outline" "Note")]>
  (<[js "TIP" := AlertEntry (js "is-success")
                   (icon_label "leaf-outline" "Tip")]>
  (<[js "IMPORTANT" := AlertEntry (js "is-important")
                   (icon_label "hand-right-outline" "Important")]>
  (<[js "CAUTION" := AlertEntry (js "is-caution")
                   (icon_label "skull-outline" "Caution")]>
  (<[js "WARNING" := AlertEntry (js "is-warning")
                   (icon_label "warning-outline" "Warning")]> ∅)))).

(** The lines of the body: [p3.split('<br>')], without the first line when
    that line is empty ([content.shift()]). *)
Definition body_lines (p3 : jsstring) : list jsstring :=
  let content := split (js "<br>") p3 in
  match content with
  | [] :: content' => content'
  | _ => content
  end.

(** ['<p>' + content.join('</p><p>') + '</p>'] *)
Definition paragraphs (content : list jsstring) : jsstring :=
  js "<p>" ++ join (js "</p><p>") content ++ js "</p>".

(** The template literal the replacer returns. *)
Definition alert_html (cls title p : jsstring) : jsstring :=
  js "<div class=" ++ [dquote] ++ js "alert " ++ cls ++ [dquote]
  ++ js "><p class=" ++ [dquote] ++ js "alert-title" ++ [dquote] ++ js ">"
  ++ title ++ js "</p>" ++ p ++ js "</div>".

(** [function (match, _, p2, p3) { ... }].  A group that took no part in the
    match is [undefined]; so is the value of a key the table lacks.  Reading
    [.ja] of [undefined] and calling [.split] on it throw a TypeError. *)
Definition replacer (caps : gmap nat (list N)) : completion jsstring :=
  match caps !! 2%nat with
  | None => Throw TypeError
  | Some p2 =>
      match alertConfig !! p2 with
      | None => Throw TypeError
      | Some alert =>
          let title := ja alert in
          let className := className alert in
          match caps !! 3%nat with
          | None => Throw TypeError
          | Some p3 =>
              Normal (alert_html className title (paragraphs (body_lines p3)))
          end
      end
  end.

(** [data.content.replace(regex, function ...)]: the transform on the HTML. *)
Definition transform (content : jsstring) : completion jsstring :=
  replace regex replacer content.

(** *** The filter and the document object *)

(** The values a document field can hold, as far as the filter can tell them
    apart: only a string has the [replace] method the filter calls. *)
Inductive value :=
| VUndefined
| VNull
| VBool (b : bool)
| VString (s : jsstring)
| VObject (l : nat).

(** Objects are property maps; the heap maps references to objects. *)
Abbreviation object := (gmap (list N) value) (only parsing).
Abbreviation heap := (gmap nat (gmap (list N) value)) (only parsing).

(** [hexo.extend.filter.register('after_post_render', function (data) {
       data.content = data.content.replace(regex, ...);
       return data;
     })]
    [data] is a reference: the assignment updates the object in the heap and
    the reference itself is returned. *)
Definition after_post_render (data : nat) (h : heap)
    : completion (value * heap) :=
  match h !! data with
  | None => Throw TypeError
  | Some o =>
      match o !! js "content" with
      | Some (VString content) =>
          content' ← transform content;
          Normal (VObject data,
                  <[data := <[js "content" := VString content']> o]> h)
      | _ => Throw TypeError
      end
  end.

(** ** Vocabulary of the statements *)

(** [w] is a run of characters of the class [[\n|\s]]. *)
Definition gap (w : jsstring) : bool := forallb (class_matches gap_class) w.

(** [s] has no occurrence of [p]. *)
Definition lacks (p s : jsstring) : Prop := index_of p s = None.

(** The text of a blockquote alert:
    [<blockquote>] w [<p>[!] tag []] body [</p>] w' [</blockquote>]. *)
Definition block (w tag body w' : jsstring) : jsstring :=
  js "<blockquote>" ++ w ++ js "<p>[!" ++ tag ++ js "]" ++ body
  ++ js "</p>" ++ w' ++ js "</blockquote>".

(** The groups of a match on such a text: the whole match, the opening up
    to the tag, the tag, the body. *)
Definition block_captures (w tag body w' : jsstring) : gmap nat (list N) :=
  <[0%nat := block w tag body w']>
  (<[3%nat := body]>
  (<[2%nat := tag]>
  (<[1%nat := js "<blockquote>" ++ w ++ js "<p>[!"]> ∅))).

(** [<p>line</p>] *)
Definition paragraph (line : jsstring) : jsstring :=
  js "<p>" ++ line ++ js "</p>".

(** The container built from a table entry and a body text. *)
Definition alert_of (e : alert_entry) (body : jsstring) : jsstring :=
  alert_html (className e) (ja e) (paragraphs (body_lines body)).

(** A text that opens with a blockquote alert. *)
Definition alert_shape (s : jsstring) : Prop :=
  ∃ w tag body w' rest,
    s = block w tag body w' ++ rest ∧ gap w = true ∧ gap w' = true
    ∧ tag ∈ pattern_tags.



(** A document cut into the texts the transform keeps and the blockquote
    alerts it rewrites. *)
Inductive segment :=
| Kept (text : jsstring)
| Alert (w tag body w' : jsstring) (e : alert_entry).

Definition segment_source (g : segment) : jsstring :=
  match g with
  | Kept text => text
  | Alert w tag body w' _ => block w tag body w'
  end.

Definition segment_output (g : segment) : jsstring :=
  match g with
  | Kept text => text
  | Alert _ _ body _ e => alert_of e body
  end.

Definition segment_ok (g : segment) : Prop :=
  match g with
  | Kept _ => True
  | Alert w tag _ w' e =>
      gap w = true ∧ gap w' = true ∧ alertConfig !! tag = Some e
  end.

(** The input behind a run of characters of the class [[\n|\s]]. *)
Fixpoint skip_gap (s : jsstring) : jsstring :=
  match s with
  | c :: s' => if class_matches gap_class c then skip_gap s' else s
  | [] => []
  end.

(** [s] opens with the closing part of the pattern: [</p>], a gap,
    [</blockquote>]. *)
Definition closes (s : jsstring) : bool :=
  starts_with (js "</p>") s
  && starts_with (js "</blockquote>") (skip_gap (drop 4 s)).

(** The closing part of the pattern starts nowhere inside [body], [tail]
    being the text behind the body. *)
Fixpoint no_close_inside (body tail : jsstring) : bool :=
  match body with
  | [] => true
  | c :: v => negb (closes (c :: v ++ tail)) && no_close_inside v tail
  end.

(** No blockquote alert starts inside a kept text, given the source behind
    it. *)
Fixpoint nothing_left (segs : list segment) : Prop :=
  match segs with
  | [] => True
  | Kept text :: segs' =>
      (∀ a v, text = a ++ v → v ≠ [] →
         ¬ alert_shape (v ++ concat (segment_source <$> segs')))
      ∧ nothing_left segs'
  | Alert _ _ _ _ _ :: segs' => nothing_left segs'
  end.

(** A post with a title and an alert as content, and a heap that holds it
    next to another post. *)
Definition sample_post : gmap (list N) value :=
  <[js "title" := VString (js "Post")]>
  (<[js "content" := VString (js "<blockquote><p>[!TIP] x</p></blockquote>")]> ∅).

Definition sample_heap : gmap nat (gmap (list N) value) :=
  <[7%nat := sample_post]>
  (<[8%nat := <[js "content" := VString (js "other")]> ∅]> ∅).

(** * Properties *)

(** ** Strings *)

Section Strings.
Implicit Types p s sep a b : list N.

Lemma starts_with_spec p s : starts_with p s = true ↔ ∃ t, s = p ++ t.
Proof.
  revert s. induction p as [|x p IH]; intros s; simpl.
  - split; eauto.
  - destruct s as [|y s].
    + split; [discriminate | intros [t Ht]; discriminate].
    + rewrite andb_true_iff, N.eqb_eq, IH. split.
      * intros [-> [t ->]]. eauto.
      * intros [t Ht]. injection Ht as -> ->. eauto.
Qed.

Lemma starts_with_app p s : starts_with p (p ++ s) = true.
Proof. apply starts_with_spec. eauto. Qed.

Lemma starts_with_nil p : p ≠ [] → starts_with p [] = false.
Proof. destruct p; [congruence | reflexivity]. Qed.

(** A prefix test that succeeds across a seam either lies before the seam
    or, past the part before the seam, goes on behind it. *)
Lemma starts_with_seam p v s :
  starts_with p (v ++ s) = true →
  (length p ≤ length v ∧ starts_with p v = true)%nat
  ∨ (length v < length p ∧ starts_with (drop (length v) p) s = true)%nat.
Proof.
  revert v. induction p as [|x p IH]; intros v H.
  - left. split; [simpl; lia | reflexivity].
  - destruct v as [|y v].
    + right. split; [simpl; lia | exact H].
    + simpl in H. apply andb_true_iff in H as [Hxy H].
      destruct (IH _ H) as [[Hl Hp] | [Hl Hp]].
      * left. split; [simpl; lia | simpl; by rewrite Hxy, Hp].
      * right. split; [simpl; lia | exact Hp].
Qed.

Lemma starts_with_drop p s :
  starts_with p s = true → s = p ++ drop (length p) s.
Proof.
  intros [t ->]%starts_with_spec. by rewrite drop_app_length.
Qed.

Lemma index_of_Some sep s a b :
  index_of sep s = Some (a, b) → s = a ++ sep ++ b.
Proof.
  revert a. induction s as [|c s IH]; intros a; simpl.
  - destruct (starts_with sep []) eqn:E; [|discriminate].
    intros [= <- <-]. by apply starts_with_drop in E.
  - destruct (starts_with sep (c :: s)) eqn:E.
    + intros [= <- <-]. by apply starts_with_drop in E.
    + destruct (index_of sep s) as [[a' b']|] eqn:E'; [|discriminate].
      simpl. intros [= <- <-]. by rewrite (IH a' eq_refl).
Qed.

Lemma index_of_None sep s :
  index_of sep s = None → ∀ a v, s = a ++ v → starts_with sep v = false.
Proof.
  induction s as [|c s IH]; simpl.
  - destruct (starts_with sep []) eqn:E; [discriminate|].
    intros _ a v Hs. symmetry in Hs. apply app_eq_nil in Hs as [_ ->]. exact E.
  - destruct (starts_with sep (c :: s)) eqn:E; [discriminate|].
    destruct (index_of sep s) eqn:E'; [discriminate|].
    intros _ [|x a] v Hs; simpl in Hs.
    + by subst v.
    + injection Hs as _ Hs. by eapply IH.
Qed.

Lemma index_of_here sep s : index_of sep (sep ++ s) = Some ([], s).
Proof.
  destruct (sep ++ s) as [|c t] eqn:E; simpl; rewrite <- E;
    by rewrite starts_with_app, drop_app_length.
Qed.

Lemma split_loop_fuel sep (Hsep : sep ≠ []) n m s :
  (length s ≤ n → length s ≤ m →
   split_loop n sep s = split_loop m sep s)%nat.
Proof.
  revert m s. induction n as [|n IH]; intros m s Hn Hm.
  - destruct s; [|simpl in Hn; lia].
    destruct m; simpl; by rewrite (starts_with_nil _ Hsep).
  - destruct m as [|m].
    + destruct s; [|simpl in Hm; lia].
      simpl; by rewrite (starts_with_nil _ Hsep).
    + simpl. destruct (index_of sep s) as [[a b]|] eqn:E; [|done].
      apply index_of_Some in E. f_equal.
      assert (length sep ≠ 0)%nat by (destruct sep; simpl; congruence).
      apply (f_equal length) in E. rewrite !length_app in E.
      apply IH; lia.
Qed.

(** The loop of [split], free of fuel. *)
Lemma split_unfold sep s :
  sep ≠ [] →
  split sep s = match index_of sep s with
                | None => [s]
                | Some (a, b) => a :: split sep b
                end.
Proof.
  intros Hsep. unfold split. destruct s as [|c s].
  - simpl. by rewrite (starts_with_nil _ Hsep).
  - change (length (c :: s)) with (S (length s)).
    cbn [split_loop]. destruct (index_of sep (c :: s)) as [[a b]|] eqn:E; [|done].
    f_equal. apply index_of_Some in E.
    assert (length sep ≠ 0)%nat by (destruct sep; simpl; congruence).
    apply (f_equal length) in E. rewrite !length_app in E. simpl in E.
    apply split_loop_fuel; [done | lia | lia].
Qed.

Lemma split_here sep s : sep ≠ [] → split sep (sep ++ s) = [] :: split sep s.
Proof. intros H. by rewrite split_unfold, index_of_here. Qed.

Lemma split_not_nil sep s : sep ≠ [] → split sep s ≠ [].
Proof.
  intros H. rewrite split_unfold by done.
  by destruct (index_of sep s) as [[a b]|].
Qed.

Lemma split_whole sep s : sep ≠ [] → index_of sep s = None → split sep s = [s].
Proof. intros H E. by rewrite split_unfold, E. Qed.

(** Joining the pieces with the separator gives the string back. *)
Lemma join_split sep s : sep ≠ [] → join sep (split sep s) = s.
Proof.
  intros Hsep. remember (length s) as n eqn:Hn.
  revert s Hn. induction (lt_wf n) as [n _ IH]. intros s ->.
  rewrite split_unfold by done.
  destruct (index_of sep s) as [[a b]|] eqn:E; [|done].
  apply index_of_Some in E. subst s.
  assert (length sep ≠ 0)%nat by (destruct sep; simpl; congruence).
  assert (Hb : join sep (split sep b) = b).
  { eapply IH; [|reflexivity]. rewrite !length_app. lia. }
  pose proof (split_not_nil sep b Hsep) as Hne.
  simpl. destruct (split sep b); [done|]. by rewrite Hb.
Qed.

End Strings.

(** ** The matcher against the declarative reading *)

Section Matcher.
Implicit Types (r : regexp) (cc : char_class) (s u v : list N).
Implicit Types (caps : gmap nat (list N)).

Lemma star_greedy_sound cc s k res :
  star_greedy cc s k = Some res →
  ∃ u s', s = u ++ s' ∧ Forall (λ c, class_matches cc c = true) u
          ∧ k s' = Some res.
Proof.
  induction s as [|c s IH]; simpl.
  - intros H. by exists [], [].
  - destruct (class_matches cc c) eqn:Hc; [|intros H; by exists [], (c :: s)].
    destruct (star_greedy cc s k) eqn:E; [|intros H; by exists [], (c :: s)].
    intros [= ->]. destruct (IH eq_refl) as (u & s' & -> & Hu & Hk).
    exists (c :: u), s'. split_and!; [done | by constructor | done].
Qed.

Lemma star_lazy_sound cc s k res :
  star_lazy cc s k = Some res →
  ∃ u s', s = u ++ s' ∧ Forall (λ c, class_matches cc c = true) u
          ∧ k s' = Some res.
Proof.
  induction s as [|c s IH]; simpl.
  - destruct (k []) eqn:E; [|discriminate]. intros [= ->]. by exists [], [].
  - destruct (k (c :: s)) eqn:E; [intros [= ->]; by exists [], (c :: s)|].
    destruct (class_matches cc c) eqn:Hc; [|discriminate].
    intros (u & s' & -> & Hu & Hk)%IH.
    exists (c :: u), s'. split_and!; [done | by constructor | done].
Qed.

Lemma star_greedy_weak cc s k : is_Some (k s) → is_Some (star_greedy cc s k).
Proof.
  intros Hk. destruct s as [|c s]; simpl; [done|].
  destruct (class_matches cc c); [|done].
  by destruct (star_greedy cc s k).
Qed.

Lemma star_greedy_complete cc u s k :
  Forall (λ c, class_matches cc c = true) u → is_Some (k s) →
  is_Some (star_greedy cc (u ++ s) k).
Proof.
  intros Hu Hk. induction Hu as [|c u Hc _ IH]; simpl.
  - by apply star_greedy_weak.
  - rewrite Hc. destruct (star_greedy cc (u ++ s) k); [done|].
    by destruct IH.
Qed.

Lemma star_lazy_complete cc u s k :
  Forall (λ c, class_matches cc c = true) u → is_Some (k s) →
  is_Some (star_lazy cc (u ++ s) k).
Proof.
  intros Hu Hk. induction Hu as [|c u Hc _ IH]; simpl.
  - destruct s; simpl; by destruct Hk as [x ->].
  - destruct (k (c :: u ++ s)); [done|]. by rewrite Hc.
Qed.

(** Whatever the matcher returns comes from the continuation, called behind
    a prefix the pattern matches. *)
Lemma run_sound r s caps k res :
  run r s caps k = Some res →
  ∃ u s' caps', s = u ++ s' ∧ matches r u ∧ k s' caps' = Some res.
Proof.
  revert s caps k. induction r as [|c|cc|r1 IH1 r2 IH2|r1 IH1 r2 IH2|g cc|n r IH];
    intros s caps k; simpl.
  - intros H. exists [], s, caps. split_and!; [done | constructor | done].
  - destruct s as [|x s]; [discriminate|].
    destruct (x =? c) eqn:E; [|discriminate]. apply N.eqb_eq in E as ->.
    intros H. exists [c], s, caps. split_and!; [done | constructor | done].
  - destruct s as [|x s]; [discriminate|].
    destruct (class_matches cc x) eqn:E; [|discriminate].
    intros H. exists [x], s, caps. split_and!; [done | by constructor | done].
  - intros (u1 & s1 & caps1 & -> & Hm1 & H)%IH1.
    apply IH2 in H as (u2 & s2 & caps2 & -> & Hm2 & H).
    exists (u1 ++ u2), s2, caps2.
    split_and!; [by rewrite app_assoc | by constructor | done].
  - destruct (run r1 s caps k) eqn:E.
    + intros [= ->]. apply IH1 in E as (u & s' & caps' & -> & Hm & H).
      exists u, s', caps'. split_and!; [done | by apply matches_alt_l | done].
    + intros (u & s' & caps' & -> & Hm & H)%IH2.
      exists u, s', caps'. split_and!; [done | by apply matches_alt_r | done].
  - destruct g.
    + intros (u & s' & -> & Hu & H)%star_greedy_sound.
      exists u, s', caps. split_and!; [done | by constructor | done].
    + intros (u & s' & -> & Hu & H)%star_lazy_sound.
      exists u, s', caps. split_and!; [done | by constructor | done].
  - intros (u & s' & caps' & -> & Hm & H)%IH.
    eexists u, s', _. split_and!; [done | by constructor | exact H].
Qed.

(** The matcher finds a match whenever the pattern matches some prefix behind
    which the continuation succeeds: backtracking loses no match. *)
Lemma run_complete r u s caps k :
  matches r u → (∀ caps', is_Some (k s caps')) →
  is_Some (run r (u ++ s) caps k).
Proof.
  intros Hm. revert s caps k.
  induction Hm as [|c|cc c Hc|r1 r2 u v _ IH1 _ IH2|r1 r2 u _ IH|r1 r2 u _ IH
                  |g cc u Hu|n r u _ IH]; intros s caps k Hk; simpl.
  - done.
  - by rewrite N.eqb_refl.
  - by rewrite Hc.
  - rewrite <- app_assoc. apply IH1. intros caps'. by apply IH2.
  - destruct (run r1 (u ++ s) caps k) eqn:E; [done|].
    destruct (IH s caps k Hk) as [x Hx]. congruence.
  - destruct (run r1 (u ++ s) caps k); [done|]. by apply IH.
  - destruct g; [by apply star_greedy_complete | by apply star_lazy_complete].
  - apply IH. intros caps'. apply Hk.
Qed.

(** Literals and alternatives of literals. *)
Lemma run_lit l s caps k :
  run (lit l) s caps k
  = if starts_with l s then k (drop (length l) s) caps else None.
Proof.
  revert s. induction l as [|a l IH]; intros s; simpl; [done|].
  destruct s as [|x s]; [done|]. rewrite (N.eqb_sym x a).
  destruct (a =? x); simpl; [apply IH | done].
Qed.

Lemma run_lit_app l s caps k : run (lit l) (l ++ s) caps k = k s caps.
Proof. by rewrite run_lit, starts_with_app, drop_app_length. Qed.

Lemma run_lit_Some l s caps k res :
  run (lit l) s caps k = Some res → ∃ s', s = l ++ s' ∧ k s' caps = Some res.
Proof.
  rewrite run_lit. destruct (starts_with l s) eqn:E; [|discriminate].
  intros H. exists (drop (length l) s). split; [by apply starts_with_drop | done].
Qed.

Lemma run_literals_Some (ts : list (list N)) s caps k res :
  run (disjunction (lit <$> ts)) s caps k = Some res →
  ∃ t s', t ∈ ts ∧ s = t ++ s' ∧ k s' caps = Some res.
Proof.
  induction ts as [|t ts IH].
  - simpl. destruct s; [discriminate|]. discriminate.
  - destruct ts as [|t' ts].
    + intros (s' & -> & H)%run_lit_Some. exists t, s'.
      split_and!; [apply list_elem_of_here | done | done].
    + change (disjunction (lit <$> t :: t' :: ts))
        with (RAlt (lit t) (disjunction (lit <$> t' :: ts))).
      cbn [run]. destruct (run (lit t) s caps k) eqn:E.
      * intros [= ->]. apply run_lit_Some in E as (s' & -> & H).
        exists t, s'. split_and!; [apply list_elem_of_here | done | done].
      * intros (t0 & s' & Ht0 & -> & H)%IH. exists t0, s'.
        split_and!; [by apply list_elem_of_further | done | done].
Qed.

Lemma take_prefix u v : take (length (u ++ v) - length v) (u ++ v) = u.
Proof.
  rewrite length_app, Nat.add_sub. by rewrite take_app_length.
Qed.

(** A match at the head of [s] covers a prefix in the language of the
    pattern; group 0 holds that prefix. *)
Lemma match_here_sound r s caps rest :
  match_here r s = Some (caps, rest) →
  ∃ u, s = u ++ rest ∧ matches r u ∧ caps !! 0%nat = Some u.
Proof.
  unfold match_here. simpl.
  intros (u & s' & caps' & -> & Hm & [= <- <-])%run_sound.
  exists u. split_and!; [done | done |].
  by rewrite lookup_insert_eq, take_prefix.
Qed.

Lemma match_here_complete r u rest :
  matches r u → is_Some (match_here r (u ++ rest)).
Proof.
  intros Hm. unfold match_here. apply run_complete; [by constructor | done].
Qed.

(** The search: the first position at which the pattern matches. *)
Lemma exec_here r s caps rest :
  match_here r s = Some (caps, rest) → exec r s = Some ([], caps, rest).
Proof. intros H. destruct s; simpl; by rewrite H. Qed.

Lemma exec_cons r c s :
  match_here r (c :: s) = None →
  exec r (c :: s) = (λ m, (c :: m.1.1, m.1.2, m.2)) <$> exec r s.
Proof. intros H. simpl. by rewrite H. Qed.

Lemma exec_skip r pre s :
  (∀ a v, pre = a ++ v → v ≠ [] → match_here r (v ++ s) = None) →
  exec r (pre ++ s) = (λ m, (pre ++ m.1.1, m.1.2, m.2)) <$> exec r s.
Proof.
  induction pre as [|c pre IH]; intros H.
  - simpl. by destruct (exec r s) as [[[??]?]|].
  - change ((c :: pre) ++ s) with (c :: pre ++ s).
    rewrite exec_cons by (by apply (H [] (c :: pre))).
    rewrite IH.
    + by destruct (exec r s) as [[[??]?]|].
    + intros a v -> Hv. by apply (H (c :: a) v).
Qed.

Lemma exec_Some r s pre caps rest :
  exec r s = Some (pre, caps, rest) →
  ∃ u, s = pre ++ u ++ rest ∧ match_here r (u ++ rest) = Some (caps, rest)
       ∧ ∀ a v, pre = a ++ v → v ≠ [] → match_here r (v ++ u ++ rest) = None.
Proof.
  revert pre. induction s as [|c s IH]; intros pre; simpl.
  - destruct (match_here r []) as [[caps' rest']|] eqn:E; [|discriminate].
    intros [= <- <- <-]. destruct (match_here_sound _ _ _ _ E) as (u & Hu & _).
    exists u. split_and!; [done | by rewrite <- Hu |].
    intros a v Hv. symmetry in Hv. by apply app_eq_nil in Hv as [_ ->].
  - destruct (match_here r (c :: s)) as [[caps' rest']|] eqn:E.
    + intros [= <- <- <-]. destruct (match_here_sound _ _ _ _ E) as (u & Hu & _).
      exists u. split_and!; [done | by rewrite <- Hu |].
      intros a v Hv. symmetry in Hv. by apply app_eq_nil in Hv as [_ ->].
    + destruct (exec r s) as [[[pre' caps'] rest']|] eqn:E'; [|discriminate].
      simpl. intros [= <- <- <-].
      destruct (IH pre' eq_refl) as (u & -> & Hu & Hpre).
      exists u. split_and!; [done | done |].
      intros [|x a] v Hv Hne; simpl in Hv.
      * by subst v.
      * injection Hv as _ ->. by apply (Hpre a v).
Qed.

Lemma exec_None r s :
  exec r s = None ↔ ∀ a v, s = a ++ v → match_here r v = None.
Proof.
  split.
  - induction s as [|c s IH]; simpl.
    + destruct (match_here r []) as [[??]|] eqn:E; [discriminate|].
      intros _ a v Hv. symmetry in Hv. by apply app_eq_nil in Hv as [_ ->].
    + destruct (match_here r (c :: s)) as [[??]|] eqn:E; [discriminate|].
      destruct (exec r s) as [[[??]?]|] eqn:E'; [discriminate|].
      intros _ [|x a] v Hv; simpl in Hv; [by subst v|].
      injection Hv as _ ->. by eapply IH.
  - induction s as [|c s IH]; intros H; simpl.
    + by rewrite (H [] []).
    + rewrite (H [] (c :: s)) by done. rewrite IH; [done|].
      intros a v ->. by apply (H (c :: a) v).
Qed.

End Matcher.

(** ** The loop of [replace] *)

Section Replace.
Context (r : regexp) (f : gmap nat (list N) → completion (list N)).

Lemma replace_loop_fuel n m s :
  (length s < n → length s < m →
   replace_loop n r f s = replace_loop m r f s)%nat.
Proof.
  revert m s. induction n as [|n IH]; intros [|m] s Hn Hm; try lia.
  simpl. destruct (exec r s) as [[[pre caps] rest]|] eqn:E; [|done].
  apply exec_Some in E as (u & -> & Hu & _).
  apply match_here_sound in Hu as (u' & Heq & _ & H0).
  apply app_inv_tail in Heq as <-. rewrite H0.
  rewrite !length_app in Hn, Hm.
  destruct (f caps) as [out|e]; simpl; [|done].
  destruct u as [|x u], rest as [|c rest]; simpl in *.
  - done.
  - rewrite (IH m rest) by lia. done.
  - rewrite (IH m []) by (simpl; lia). done.
  - rewrite (IH m (c :: rest)) by (simpl; lia). done.
Qed.

(** [replace], free of fuel. *)
Lemma replace_unfold s :
  replace r f s =
  match exec r s with
  | None => Normal s
  | Some (pre, caps, rest) =>
      out ← f caps;
      match caps !! 0%nat, rest with
      | Some [], [] => Normal (pre ++ out)
      | Some [], c :: rest' =>
          tl ← replace r f rest'; Normal (pre ++ out ++ c :: tl)
      | _, _ => tl ← replace r f rest; Normal (pre ++ out ++ tl)
      end
  end.
Proof.
  change (replace r f s) with (replace_loop (S (length s)) r f s).
  remember (replace r f) as R eqn:HR. simpl.
  destruct (exec r s) as [[[pre caps] rest]|] eqn:E; [|done].
  apply exec_Some in E as (u & -> & Hu & _).
  apply match_here_sound in Hu as (u' & Heq & _ & H0).
  apply app_inv_tail in Heq as <-. rewrite H0.
  destruct (f caps) as [out|e]; simpl; [|done].
  subst R. unfold replace.
  destruct u as [|x u], rest as [|c rest]; simpl length.
  - done.
  - rewrite (replace_loop_fuel _ (S (length rest)) rest); [done | | lia].
    repeat (rewrite length_app; simpl). lia.
  - rewrite (replace_loop_fuel _ 1 []); [done | | simpl; lia].
    repeat (rewrite length_app; simpl). lia.
  - rewrite (replace_loop_fuel _ (S (S (length rest))) (c :: rest));
      [done | | simpl; lia].
    repeat (rewrite length_app; simpl). lia.
Qed.

End Replace.

(** ** The pattern of the script *)

Section Pattern.
Implicit Types (s w t body rest : list N) (caps : gmap nat (list N)).

Lemma gap_Forall w :
  gap w = true ↔ Forall (λ c, class_matches gap_class c = true) w.
Proof.
  unfold gap. induction w as [|c w IH]; simpl.
  - split; [constructor | done].
  - rewrite andb_true_iff, IH. split.
    + intros [??]. by constructor.
    + intros H. by inversion H.
Qed.

Lemma gap_not_lt c : class_matches gap_class c = true → c ≠ 0x3C.
Proof. intros H ->. vm_compute in H. discriminate. Qed.

Lemma any_class_all c : class_matches any_class c = true.
Proof. reflexivity. Qed.

Lemma take_split (x u v : list N) :
  x = u ++ v → take (length x - length v) x = u.
Proof. intros ->. apply take_prefix. Qed.

(** A greedy gap in front of a literal that starts with [<]: the gap is
    skipped whole, since the literal cannot start inside it. *)
Lemma star_greedy_gap w l s caps (k : list N → gmap nat (list N) → _) :
  gap w = true →
  star_greedy gap_class (w ++ (0x3C :: l) ++ s)
    (λ s', run (lit (0x3C :: l)) s' caps k)
  = run (lit (0x3C :: l)) ((0x3C :: l) ++ s) caps k.
Proof.
  intros Hw%gap_Forall. induction Hw as [|c w Hc _ IH].
  - reflexivity.
  - change ((c :: w) ++ (0x3C :: l) ++ s) with (c :: (w ++ (0x3C :: l) ++ s)).
    cbn [star_greedy]. rewrite Hc, IH.
    destruct (run (lit (0x3C :: l)) ((0x3C :: l) ++ s) caps k); [done|].
    simpl. apply gap_not_lt in Hc. by apply N.eqb_neq in Hc as ->.
Qed.

(** The lazy body stops at the first place where the rest of the pattern
    succeeds. *)
Lemma star_lazy_first (body tail : list N) k res :
  (∀ a c v, body = a ++ c :: v → k (c :: v ++ tail) = None) →
  k tail = Some res →
  star_lazy any_class (body ++ tail) k = Some res.
Proof.
  intros Hbody Htail. induction body as [|c body IH]; simpl.
  - destruct tail; simpl; by rewrite Htail.
  - rewrite (Hbody [] c body eq_refl). apply IH.
    intros a c' v ->. by apply (Hbody (c :: a) c' v).
Qed.

Lemma run_tag_here t s caps k :
  t ∈ pattern_tags →
  run (disjunction (lit <$> pattern_tags)) (t ++ s) caps k = k s caps.
Proof.
  intros Ht. apply list_elem_of_In in Ht. simpl in Ht.
  destruct Ht as [<-|[<-|[<-|[<-|[<-|[]]]]]]; simpl;
    by destruct (k s caps).
Qed.

(** No [</p>] in the body: the closing part of the pattern cannot start
    inside the body, the seam to the real [</p>] included. *)
Lemma no_early_close body a c v tail :
  lacks (js "</p>") body → body = a ++ c :: v →
  starts_with (js "</p>") (c :: v ++ js "</p>" ++ tail) = false.
Proof.
  intros Hb ->. destruct (starts_with _ _) eqn:E; [|done]. exfalso.
  change (c :: v ++ js "</p>" ++ tail) with ((c :: v) ++ js "</p>" ++ tail) in E.
  apply starts_with_seam in E as [[_ E] | [Hl E]].
  - by rewrite (index_of_None _ _ Hb a (c :: v) eq_refl) in E.
  - simpl in Hl. destruct v as [|? [|? [|? ?]]]; simpl in Hl; try lia;
      vm_compute in E; discriminate.
Qed.

(** What a match at the head of a text looks like. *)
Lemma match_here_regex_inv s caps rest :
  match_here regex s = Some (caps, rest) →
  ∃ w t body w',
    s = block w t body w' ++ rest ∧ gap w = true ∧ gap w' = true
    ∧ t ∈ pattern_tags ∧ caps = block_captures w t body w'.
Proof.
  unfold match_here, regex. cbn [run]. intros H.
  apply run_lit_Some in H as (s1 & Hs1 & H).
  apply star_greedy_sound in H as (w & s2 & -> & Hw & H).
  apply run_lit_Some in H as (s3 & -> & H).
  apply run_literals_Some in H as (t & s4 & Ht & -> & H).
  destruct s4 as [|x s5]; [discriminate|].
  destruct (x =? 0x5D) eqn:Ex; [|discriminate]. apply N.eqb_eq in Ex as ->.
  apply star_lazy_sound in H as (body & s6 & -> & _ & H).
  apply run_lit_Some in H as (s7 & -> & H).
  apply star_greedy_sound in H as (w' & s8 & -> & Hw' & H).
  apply run_lit_Some in H as (s9 & -> & H).
  pose proof (f_equal (from_option fst ∅) H) as Hcaps.
  pose proof (f_equal (from_option snd []) H) as Hrest.
  cbn [from_option fst snd] in Hcaps, Hrest. clear H. subst caps rest.
  assert (Hs : s = block w t body w' ++ s9).
  { rewrite Hs1. unfold block. by rewrite <- !app_assoc. }
  exists w, t, body, w'. split_and!; [done | by apply gap_Forall
    | by apply gap_Forall | done |].
  unfold block_captures.
  f_equal; [by apply take_split|].
  f_equal; [by apply take_split|].
  f_equal; [by apply take_split|].
  f_equal. apply take_split. rewrite Hs1. by rewrite <- !app_assoc.
Qed.

Lemma match_here_block w t body w' rest :
  gap w = true → gap w' = true → t ∈ pattern_tags →
  lacks (js "</p>") body →
  match_here regex (block w t body w' ++ rest)
  = Some (block_captures w t body w', rest).
Proof.
  intros Hw Hw' Ht Hb. unfold match_here, regex.
  remember (block w t body w' ++ rest) as s eqn:Hs.
  cbn [run].
  assert (Hs' := Hs). unfold block in Hs'. rewrite <- !app_assoc in Hs'.
  rewrite Hs' at 1.
  rewrite run_lit_app.
  change (js "<p>[!") with (0x3C :: js "p>[!").
  rewrite star_greedy_gap by done. rewrite run_lit_app.
  rewrite run_tag_here by done.
  set (tail := js "</p>" ++ w' ++ js "</blockquote>" ++ rest).
  change (js "]" ++ body ++ tail) with (0x5D :: body ++ tail).
  cbv beta iota. rewrite N.eqb_refl.
  apply star_lazy_first.
  - intros a c v Hbody. rewrite run_lit.
    unfold tail. by rewrite (no_early_close body a c v _ Hb Hbody).
  - unfold tail. rewrite run_lit_app.
    change (js "</blockquote>") with (0x3C :: js "/blockquote>").
    rewrite star_greedy_gap by done. rewrite run_lit_app.
    f_equal. f_equal. unfold block_captures.
    f_equal; [by apply take_split|].
    f_equal; [by apply take_split|].
    f_equal; [by apply take_split|].
    f_equal. apply take_split. rewrite Hs'. by rewrite <- !app_assoc.
Qed.

(** A match starts with [<blockquote>]. *)
Lemma match_here_opens s :
  starts_with (js "<blockquote>") s = false → match_here regex s = None.
Proof.
  intros H. destruct (match_here regex s) as [[caps rest]|] eqn:E; [|done].
  apply match_here_regex_inv in E as (w & t & body & w' & -> & _).
  unfold block in H. rewrite <- !app_assoc in H.
  by rewrite starts_with_app in H.
Qed.

Lemma matches_lit l : matches (lit l) l.
Proof.
  induction l as [|a l IH]; simpl; [constructor|].
  apply (matches_cat _ _ [a] l); [constructor | done].
Qed.

Lemma matches_literals (ts : list (list N)) t :
  t ∈ ts → matches (disjunction (lit <$> ts)) t.
Proof.
  induction ts as [|t' ts IH]; [by intros ?%elem_of_nil|].
  intros [->|Ht]%elem_of_cons.
  - destruct ts; [apply matches_lit | apply matches_alt_l, matches_lit].
  - destruct ts as [|t'' ts]; [by apply elem_of_nil in Ht|].
    by apply matches_alt_r, IH.
Qed.

(** The texts the pattern matches are the blockquote alerts, with gaps of
    the class and any body. *)
Lemma matches_regex_block w t body w' :
  gap w = true → gap w' = true → t ∈ pattern_tags →
  matches regex (block w t body w').
Proof.
  intros Hw%gap_Forall Hw'%gap_Forall Ht. unfold regex, block.
  rewrite (app_assoc _ w), (app_assoc _ (js "<p>[!")).
  apply matches_cat.
  { apply matches_group. rewrite <- app_assoc. apply matches_cat.
    - apply matches_lit.
    - apply matches_cat; [by apply matches_star | apply matches_lit]. }
  apply matches_cat; [by apply matches_group, matches_literals|].
  apply (matches_cat _ _ [0x5D]); [apply matches_char|].
  apply matches_cat.
  { apply matches_group, matches_star, Forall_forall. intros; apply any_class_all. }
  apply matches_cat; [apply matches_lit|].
  apply matches_cat; [by apply matches_star | apply matches_lit].
Qed.

End Pattern.

(** ** The transform *)

Section Transform.
Implicit Types (s w t body rest pre : list N) (e : alert_entry).

Lemma dom_alertConfig : dom alertConfig = list_to_set pattern_tags.
Proof.
  unfold alertConfig, pattern_tags. rewrite !dom_insert_L, dom_empty_L.
  simpl. set_solver.
Qed.

Lemma alertConfig_tag t : t ∈ pattern_tags ↔ is_Some (alertConfig !! t).
Proof. by rewrite <- elem_of_dom, dom_alertConfig, elem_of_list_to_set. Qed.

Lemma replacer_block w t body w' e :
  alertConfig !! t = Some e →
  replacer (block_captures w t body w') = Normal (alert_of e body).
Proof.
  intros He. unfold replacer, block_captures.
  rewrite lookup_insert_ne, lookup_insert_ne, lookup_insert_eq by done.
  rewrite He. by rewrite lookup_insert_ne, lookup_insert_eq by done.
Qed.

Lemma block_cons w t body w' :
  block w t body w' = 0x3C :: drop 1 (block w t body w').
Proof. reflexivity. Qed.

(** [transform], one match at a time: the text before the leftmost match is
    copied, the match is replaced by its container, and the text behind the
    match is transformed in the same way. *)
Lemma transform_unfold s :
  transform s =
  match exec regex s with
  | None => Normal s
  | Some (pre, caps, rest) =>
      out ← replacer caps; tl ← transform rest; Normal (pre ++ out ++ tl)
  end.
Proof.
  unfold transform. rewrite replace_unfold.
  destruct (exec regex s) as [[[pre caps] rest]|] eqn:E; [|done].
  apply exec_Some in E as (u & -> & Hu & _).
  destruct (match_here_regex_inv _ _ _ Hu) as (w & t & body & w' & _ & _ & _ & _ & ->).
  destruct (replacer _); [|done]. unfold block_captures.
  rewrite lookup_insert_eq, block_cons. by destruct rest.
Qed.

Lemma transform_id s : exec regex s = None → transform s = Normal s.
Proof. intros H. by rewrite transform_unfold, H. Qed.

Lemma transform_skip pre s :
  (∀ a v, pre = a ++ v → v ≠ [] → match_here regex (v ++ s) = None) →
  transform (pre ++ s) = tl ← transform s; Normal (pre ++ tl).
Proof.
  intros H. rewrite (transform_unfold (pre ++ s)), (transform_unfold s).
  rewrite exec_skip by done.
  destruct (exec regex s) as [[[pre' caps] rest]|]; simpl; [|done].
  destruct (replacer caps); simpl; [|done].
  destruct (transform rest); simpl; [|done]. by rewrite <- app_assoc.
Qed.

Lemma transform_block_head w t body w' e rest :
  gap w = true → gap w' = true → alertConfig !! t = Some e →
  lacks (js "</p>") body →
  transform (block w t body w' ++ rest)
  = tl ← transform rest; Normal (alert_of e body ++ tl).
Proof.
  intros Hw Hw' He Hb. rewrite transform_unfold.
  assert (Ht : t ∈ pattern_tags) by (apply alertConfig_tag; eauto).
  rewrite (exec_here _ _ _ _ (match_here_block w t body w' rest Hw Hw' Ht Hb)).
  by rewrite (replacer_block _ _ _ _ _ He).
Qed.

Lemma transform_nil : transform [] = Normal [].
Proof. reflexivity. Qed.

(** A document that is one blockquote alert. *)
Lemma transform_block w t body w' e :
  gap w = true → gap w' = true → alertConfig !! t = Some e →
  lacks (js "</p>") body →
  transform (block w t body w') = Normal (alert_of e body).
Proof.
  intros Hw Hw' He Hb. rewrite <- (app_nil_r (block w t body w')).
  rewrite (transform_block_head _ _ _ _ e) by done.
  rewrite transform_nil. simpl. by rewrite app_nil_r.
Qed.

(** The transform never throws. *)
Lemma transform_total s : ∃ out, transform s = Normal out.
Proof.
  remember (length s) as n eqn:Hn. revert s Hn.
  induction (lt_wf n) as [n _ IH]. intros s ->.
  rewrite transform_unfold.
  destruct (exec regex s) as [[[pre caps] rest]|] eqn:E; [|eauto].
  apply exec_Some in E as (u & -> & Hu & _).
  destruct (match_here_regex_inv _ _ _ Hu)
    as (w & t & body & w' & Hblock & _ & _ & Ht & ->).
  apply app_inv_tail in Hblock as ->.
  apply alertConfig_tag in Ht as [e He].
  rewrite (replacer_block _ _ _ _ _ He). simpl.
  destruct (IH (length rest)) with (s := rest) as [out ->]; [|done|].
  - rewrite !length_app, block_cons. simpl. lia.
  - simpl. eauto.
Qed.

(** Text without [<blockquote>], in front of the end of the input or of a
    [<]: no match starts inside it. *)
Lemma no_match_inside pre s a v :
  lacks (js "<blockquote>") pre → s = [] ∨ (∃ s', s = 0x3C :: s') →
  pre = a ++ v → v ≠ [] → match_here regex (v ++ s) = None.
Proof.
  intros Hpre Hs -> Hv. apply match_here_opens.
  destruct (starts_with _ _) eqn:E; [|done]. exfalso.
  apply starts_with_seam in E as [[_ E] | [Hl E]].
  - by rewrite (index_of_None _ _ Hpre a v eq_refl) in E.
  - destruct v as [|c v]; [done|]. simpl in Hl.
    destruct Hs as [->|[s' ->]].
    + rewrite starts_with_nil in E; [done|].
      intros Hd%(f_equal length). rewrite length_drop in Hd. simpl in *. lia.
    + do 11 (destruct v as [|? v]; [vm_compute in E; discriminate|]).
      simpl in Hl. lia.
Qed.

End Transform.

(** ** Lines and paragraphs *)

Section Lines.
Implicit Types (s body rest : list N).

Lemma br_not_nil : js "<br>" ≠ [].
Proof. discriminate. Qed.

Lemma lacks_cons p c s :
  starts_with p (c :: s) = false → lacks p s → lacks p (c :: s).
Proof. unfold lacks. intros H E. simpl. by rewrite H, E. Qed.

Lemma lacks_nil p : p ≠ [] → lacks p [].
Proof. intros H. unfold lacks. simpl. by rewrite starts_with_nil. Qed.

(** A body that starts with a line break: the empty first line goes. *)
Lemma body_lines_break rest :
  body_lines (js "<br>" ++ rest) = split (js "<br>") rest.
Proof. unfold body_lines. by rewrite split_here by apply br_not_nil. Qed.

(** A body without a line break is a single line; the empty body has none. *)
Lemma paragraphs_one_line body :
  lacks (js "<br>") body → paragraphs (body_lines body) = paragraph body.
Proof.
  intros H. unfold body_lines.
  rewrite split_whole by (apply br_not_nil || done).
  by destruct body.
Qed.

(** One paragraph per line, nothing in between. *)
Lemma paragraphs_concat (lines : list (list N)) :
  lines ≠ [] → paragraphs lines = concat (paragraph <$> lines).
Proof.
  unfold paragraphs, paragraph. induction lines as [|x lines IH]; [done|].
  intros _. destruct lines as [|y lines].
  - simpl. by rewrite app_nil_r.
  - change (join (js "</p><p>") (x :: y :: lines))
      with (x ++ js "</p><p>" ++ join (js "</p><p>") (y :: lines)).
    change (concat ((λ l, js "<p>" ++ l ++ js "</p>") <$> x :: y :: lines))
      with ((js "<p>" ++ x ++ js "</p>")
            ++ concat ((λ l, js "<p>" ++ l ++ js "</p>") <$> y :: lines)).
    rewrite <- IH by done. rewrite <- !app_assoc. reflexivity.
Qed.

End Lines.

(** * The claims *)

(** C1, as amended.  For each key TAG of the table, with style class C and
    label L, the one-line block [<blockquote><p>[!TAG] body text</p></blockquote>]
    becomes [<div class="alert C"><p class="alert-title">L</p><p> body text</p></div>]:
    one paragraph, holding the text behind the closing bracket as it stands,
    the space after the bracket included. *)
Theorem one_line_body_verbatim (t : list N) (e : alert_entry) :
  alertConfig !! t = Some e →
  transform (js "<blockquote><p>[!" ++ t ++ js "] body text</p></blockquote>")
  = Normal (alert_html (className e) (ja e) (js "<p> body text</p>")).
Proof.
  intros He.
  change (js "<blockquote><p>[!" ++ t ++ js "] body text</p></blockquote>")
    with (block [] t (js " body text") []).
  rewrite (transform_block _ _ _ _ e) by done.
  unfold alert_of. by rewrite paragraphs_one_line.
Qed.

Lemma one_line_body_verbatim_witness :
  alertConfig !! js "NOTE"
    = Some (AlertEntry (js "is-info") (icon_label "alert-circle-outline" "Note"))
  ∧ transform (js "<blockquote><p>[!NOTE] body text</p></blockquote>")
    = Normal (alert_html (js "is-info")
                (icon_label "alert-circle-outline" "Note")
                (js "<p> body text</p>")).
Proof.
  split; [reflexivity|].
  exact (one_line_body_verbatim (js "NOTE")
           (AlertEntry (js "is-info") (icon_label "alert-circle-outline" "Note"))
           eq_refl).
Defined.

(** C1 as stated fails: the paragraph of the NOTE example is not
    [<p>body text</p>]. *)
Lemma one_line_body_not_trimmed :
  transform (js "<blockquote><p>[!NOTE] body text</p></blockquote>")
  ≠ Normal (alert_html (js "is-info")
              (icon_label "alert-circle-outline" "Note")
              (js "<p>body text</p>")).
Proof. vm_compute. discriminate. Qed.

(** C3.  A body that begins with a line break loses that empty first line,
    and each remaining line, empty ones included, becomes a paragraph of its
    own, in order: the lines are the pieces [split] cuts the rest of the
    body into, and joined again by [<br>] they are that rest.  In particular
    [<blockquote><p>[!NOTE]<br>line one<br>line two</p></blockquote>] gives
    the two paragraphs [<p>line one</p><p>line two</p>] and no empty
    paragraph in front. *)
Theorem leading_break_dropped :
  (∀ (w t rest w' : list N) (e : alert_entry),
     alertConfig !! t = Some e →
     replacer (block_captures w t (js "<br>" ++ rest) w')
     = Normal (alert_html (className e) (ja e)
                 (concat (paragraph <$> split (js "<br>") rest)))
     ∧ join (js "<br>") (split (js "<br>") rest) = rest
     ∧ (gap w = true → gap w' = true → lacks (js "</p>") rest →
        transform (block w t (js "<br>" ++ rest) w')
        = Normal (alert_html (className e) (ja e)
                    (concat (paragraph <$> split (js "<br>") rest)))))
  ∧ transform
      (js "<blockquote><p>[!NOTE]<br>line one<br>line two</p></blockquote>")
    = Normal (alert_html (js "is-info")
                (icon_label "alert-circle-outline" "Note")
                (js "<p>line one</p><p>line two</p>")).
Proof.
  split; [|reflexivity].
  intros w t rest w' e He.
  assert (Hp : alert_of e (js "<br>" ++ rest)
               = alert_html (className e) (ja e)
                   (concat (paragraph <$> split (js "<br>") rest))).
  { unfold alert_of. rewrite body_lines_break.
    by rewrite paragraphs_concat by apply split_not_nil, br_not_nil. }
  split_and!.
  - rewrite (replacer_block _ _ _ _ _ He). by rewrite Hp.
  - apply join_split, br_not_nil.
  - intros Hw Hw' Hrest. rewrite <- Hp. apply transform_block; [done..|].
    by do 4 (apply lacks_cons; [reflexivity|]).
Qed.

Lemma leading_break_dropped_witness :
  transform (block [] (js "TIP") (js "<br>one<br><br>three") [0xA])
  = Normal (alert_html (js "is-success") (icon_label "leaf-outline" "Tip")
              (js "<p>one</p><p></p><p>three</p>")).
Proof.
  exact (proj2 (proj2 (proj1 leading_break_dropped [] (js "TIP")
                  (js "one<br><br>three") [0xA]
                  (AlertEntry (js "is-success") (icon_label "leaf-outline" "Tip"))
                  eq_refl)) eq_refl eq_refl eq_refl).
Defined.

(** C7.  White space and newlines between [<blockquote>] and [<p>], and
    between [</p>] and [</blockquote>], do not matter: for every tag of the
    table, the block with gaps in those two places is rewritten to the
    container of the block without them.  Runs of newlines, spaces and tabs
    are such gaps. *)
Theorem gaps_tolerated (w w' t body : list N) (e : alert_entry) :
  gap w = true → gap w' = true → alertConfig !! t = Some e →
  lacks (js "</p>") body →
  transform (block w t body w') = Normal (alert_of e body)
  ∧ transform (block w t body w') = transform (block [] t body [])
  ∧ (∀ u, Forall (λ c, c = 0xA ∨ c = 0x20 ∨ c = 0x9) u → gap u = true).
Proof.
  intros Hw Hw' He Hb. split_and!.
  - by apply transform_block.
  - by rewrite !(transform_block _ _ _ _ e).
  - intros u Hu. apply gap_Forall. eapply Forall_impl; [exact Hu|].
    by intros c [->|[->| ->]].
Qed.

Lemma gaps_tolerated_witness :
  gap [0xA; 0x20; 0x20] = true ∧ gap [0xA] = true
  ∧ transform (block [0xA; 0x20; 0x20] (js "WARNING") (js " mind the gap") [0xA])
    = transform (js "<blockquote><p>[!WARNING] mind the gap</p></blockquote>").
Proof.
  split; [reflexivity|]. split; [reflexivity|].
  exact (proj1 (proj2 (gaps_tolerated [0xA; 0x20; 0x20] [0xA] (js "WARNING")
                  (js " mind the gap")
                  (AlertEntry (js "is-warning") (icon_label "warning-outline" "Warning"))
                  eq_refl eq_refl eq_refl eq_refl))).
Defined.

(** C10.  An alert with an empty body: dropping the empty first line leaves
    no line at all, and the container still holds one paragraph, the empty
    [<p></p>]. *)
Theorem empty_body_one_empty_paragraph (w w' t : list N) (e : alert_entry) :
  gap w = true → gap w' = true → alertConfig !! t = Some e →
  body_lines [] = []
  ∧ transform (block w t [] w')
    = Normal (alert_html (className e) (ja e) (js "<p></p>")).
Proof.
  intros Hw Hw' He. split; [reflexivity|].
  by rewrite (transform_block _ _ _ _ e).
Qed.

Lemma empty_body_one_empty_paragraph_witness :
  transform (js "<blockquote><p>[!NOTE]</p></blockquote>")
  = Normal (alert_html (js "is-info")
              (icon_label "alert-circle-outline" "Note") (js "<p></p>")).
Proof.
  exact (proj2 (empty_body_one_empty_paragraph [] [] (js "NOTE")
                  (AlertEntry (js "is-info") (icon_label "alert-circle-outline" "Note"))
                  eq_refl eq_refl eq_refl)).
Defined.

(** ** Regions the pattern does not match *)

Section Unmatched.
Implicit Types (s w x t u rest pre doc : list N).





Lemma exec_lacks s : lacks (js "<blockquote>") s → exec regex s = None.
Proof.
  intros H. apply exec_None. intros a v ->.
  apply match_here_opens. by apply (index_of_None _ _ H a v).
Qed.

Lemma alert_shape_matches s : alert_shape s → is_Some (match_here regex s).
Proof.
  intros (w & t & body & w' & rest & -> & Hw & Hw' & Ht).
  by apply match_here_complete, matches_regex_block.
Qed.


Lemma no_match_by_exec doc :
  exec regex doc = None → ∀ a m b, doc = a ++ m ++ b → ¬ matches regex m.
Proof.
  intros H a m b Hdoc Hm. rewrite exec_None in H.
  destruct (match_here_complete regex m b Hm) as [x Hx].
  by rewrite (H a (m ++ b) Hdoc) in Hx.
Qed.




End Unmatched.




(** ** The document as kept texts and rewritten alerts *)

Lemma transform_segments (doc : list N) :
  ∃ segs,
    doc = concat (segment_source <$> segs)
    ∧ transform doc = Normal (concat (segment_output <$> segs))
    ∧ Forall segment_ok segs.
Proof.
  remember (length doc) as n eqn:Hn. revert doc Hn.
  induction (lt_wf n) as [n _ IH]. intros doc ->.
  rewrite transform_unfold.
  destruct (exec regex doc) as [[[pre caps] rest]|] eqn:E.
  - apply exec_Some in E as (u & -> & Hu & _).
    destruct (match_here_regex_inv _ _ _ Hu)
      as (w & t & body & w' & Hblock & Hw & Hw' & Ht & ->).
    apply app_inv_tail in Hblock as ->.
    apply alertConfig_tag in Ht as [e He].
    destruct (IH (length rest)) with (doc := rest)
      as (segs & Hsrc & Hout & Hok); [|done|].
    { rewrite !length_app, block_cons. simpl. lia. }
    exists (Kept pre :: Alert w t body w' e :: segs). split_and!.
    + rewrite Hsrc at 1. reflexivity.
    + rewrite (replacer_block _ _ _ _ _ He), Hout. reflexivity.
    + by repeat constructor.
  - exists [Kept doc]. split_and!.
    + simpl. by rewrite app_nil_r.
    + simpl. by rewrite app_nil_r.
    + by repeat constructor.
Qed.

(** C4.  A document with no substring that the pattern matches is returned
    as it is; and every document is a sequence of kept texts and blockquote
    alerts such that the output repeats the kept texts, code unit for code
    unit, and has the container of each alert in its place. *)
Theorem pass_through (doc : list N) :
  ((∀ a m b, doc = a ++ m ++ b → ¬ matches regex m) →
   transform doc = Normal doc)
  ∧ ∃ segs,
      doc = concat (segment_source <$> segs)
      ∧ transform doc = Normal (concat (segment_output <$> segs))
      ∧ Forall segment_ok segs.
Proof.
  split; [|apply transform_segments].
  intros H. apply transform_id, exec_None. intros a v ->.
  destruct (match_here regex v) as [[caps rest]|] eqn:E; [exfalso|done].
  apply match_here_sound in E as (u & -> & Hm & _). by apply (H a u rest).
Qed.

Lemma pass_through_witness :
  transform (js "<h1>Title</h1> <blockquote><p>An ordinary quote.</p></blockquote>")
  = Normal (js "<h1>Title</h1> <blockquote><p>An ordinary quote.</p></blockquote>").
Proof.
  apply (proj1 (pass_through
    (js "<h1>Title</h1> <blockquote><p>An ordinary quote.</p></blockquote>"))).
  apply no_match_by_exec. vm_compute. reflexivity.
Defined.




(** C6.  The search runs over the whole document, left to right.  Where the
    leftmost match is found, the text before it is copied, the match is
    replaced, and the transform goes on with the text behind the match, so
    matches neither nest nor overlap.  A document with two alert blocks,
    with text free of [<blockquote>] before, between and behind them, has
    both blocks rewritten and that text unchanged. *)
Theorem every_match_replaced :
  (∀ doc pre caps rest,
     exec regex doc = Some (pre, caps, rest) →
     ∃ m out tl,
       doc = pre ++ m ++ rest ∧ caps !! 0%nat = Some m ∧ m ≠ []
       ∧ replacer caps = Normal out ∧ transform rest = Normal tl
       ∧ transform doc = Normal (pre ++ out ++ tl))
  ∧ (∀ a b c w1 t1 body1 w1' e1 w2 t2 body2 w2' e2,
       lacks (js "<blockquote>") a → lacks (js "<blockquote>") b →
       lacks (js "<blockquote>") c →
       gap w1 = true → gap w1' = true → alertConfig !! t1 = Some e1 →
       lacks (js "</p>") body1 →
       gap w2 = true → gap w2' = true → alertConfig !! t2 = Some e2 →
       lacks (js "</p>") body2 →
       transform (a ++ block w1 t1 body1 w1' ++ b ++ block w2 t2 body2 w2' ++ c)
       = Normal (a ++ alert_of e1 body1 ++ b ++ alert_of e2 body2 ++ c)).
Proof.
  split.
  - intros doc pre caps rest E.
    pose proof (transform_unfold doc) as Hdoc. rewrite E in Hdoc.
    apply exec_Some in E as (u & -> & Hu & _).
    destruct (match_here_regex_inv _ _ _ Hu)
      as (w & t & body & w' & Hblock & _ & _ & Ht & ->).
    apply app_inv_tail in Hblock as ->.
    apply alertConfig_tag in Ht as [e He].
    destruct (transform_total rest) as [tl Htl].
    exists (block w t body w'), (alert_of e body), tl.
    rewrite (replacer_block _ _ _ _ _ He), Htl in Hdoc.
    split_and!; try done. by apply replacer_block.
  - intros a b c w1 t1 body1 w1' e1 w2 t2 body2 w2' e2
      Ha Hb Hc Hw1 Hw1' He1 Hb1 Hw2 Hw2' He2 Hb2.
    rewrite transform_skip.
    2:{ intros x v. apply no_match_inside; [done|]. right. by eexists. }
    rewrite (transform_block_head _ _ _ _ e1) by done.
    rewrite transform_skip.
    2:{ intros x v. apply no_match_inside; [done|]. right. by eexists. }
    rewrite (transform_block_head _ _ _ _ e2) by done.
    rewrite (transform_id c) by (by apply exec_lacks).
    reflexivity.
Qed.

Lemma every_match_replaced_witness :
  transform (js "Intro. <blockquote><p>[!NOTE] one</p></blockquote> <em>Between.</em> <blockquote><p>[!WARNING]<br>two</p></blockquote> End.")
  = Normal (js "Intro. "
            ++ alert_html (js "is-info")
                 (icon_label "alert-circle-outline" "Note") (js "<p> one</p>")
            ++ js " <em>Between.</em> "
            ++ alert_html (js "is-warning")
                 (icon_label "warning-outline" "Warning") (js "<p>two</p>")
            ++ js " End.").
Proof.
  exact (proj2 every_match_replaced
           (js "Intro. ") (js " <em>Between.</em> ") (js " End.")
           [] (js "NOTE") (js " one") []
           (AlertEntry (js "is-info") (icon_label "alert-circle-outline" "Note"))
           [] (js "WARNING") (js "<br>two") []
           (AlertEntry (js "is-warning") (icon_label "warning-outline" "Warning"))
           eq_refl eq_refl eq_refl eq_refl eq_refl eq_refl eq_refl
           eq_refl eq_refl eq_refl eq_refl).
Defined.

(** C8.  Called on a document whose [content] is a string, the filter
    returns the reference it was given; the object behind it has the
    transformed HTML as its [content] and every other field as before, and
    no other object of the heap changes. *)
Theorem filter_frame (h : gmap nat (gmap (list N) value)) (data : nat)
    (o : gmap (list N) value) (content : list N) :
  h !! data = Some o → o !! js "content" = Some (VString content) →
  ∃ content' h' o',
    transform content = Normal content'
    ∧ after_post_render data h = Normal (VObject data, h')
    ∧ h' !! data = Some o'
    ∧ o' !! js "content" = Some (VString content')
    ∧ (∀ field, field ≠ js "content" → o' !! field = o !! field)
    ∧ (∀ l, l ≠ data → h' !! l = h !! l).
Proof.
  intros Hd Hc. destruct (transform_total content) as [content' Ht].
  exists content', (<[data := <[js "content" := VString content']> o]> h),
    (<[js "content" := VString content']> o).
  unfold after_post_render. rewrite Hd, Hc, Ht. split_and!.
  - done.
  - done.
  - by rewrite lookup_insert_eq.
  - by rewrite lookup_insert_eq.
  - intros field Hf. by rewrite lookup_insert_ne.
  - intros l Hl. by rewrite lookup_insert_ne.
Qed.

Lemma filter_frame_witness :
  ∃ content' h' o',
    transform (js "<blockquote><p>[!TIP] x</p></blockquote>") = Normal content'
    ∧ after_post_render 7 sample_heap = Normal (VObject 7, h')
    ∧ h' !! 7%nat = Some o'
    ∧ o' !! js "content" = Some (VString content')
    ∧ (∀ field, field ≠ js "content" → o' !! field = sample_post !! field)
    ∧ (∀ l, l ≠ 7%nat → h' !! l = sample_heap !! l).
Proof.
  apply (filter_frame sample_heap 7%nat sample_post
           (js "<blockquote><p>[!TIP] x</p></blockquote>")); reflexivity.
Defined.

(** C9.  The keys of the table are the alternatives of the pattern's tag
    group.  So the tag of every match has an entry, the replacer returns a
    string for every match, and the transform returns a string for every
    input, as does the filter for every document with a string as content: the
    TypeError of reading a field of [undefined] cannot happen. *)
Theorem lookup_never_misses :
  dom alertConfig = list_to_set pattern_tags
  ∧ (∀ s caps rest,
       match_here regex s = Some (caps, rest) →
       ∃ t e out, caps !! 2%nat = Some t ∧ t ∈ pattern_tags
                  ∧ alertConfig !! t = Some e ∧ replacer caps = Normal out)
  ∧ (∀ doc, ∃ out, transform doc = Normal out)
  ∧ (∀ (h : gmap nat (gmap (list N) value)) data o content,
       h !! data = Some o → o !! js "content" = Some (VString content) →
       ∃ res, after_post_render data h = Normal res).
Proof.
  split_and!.
  - apply dom_alertConfig.
  - intros s caps rest H.
    apply match_here_regex_inv in H as (w & t & body & w' & _ & _ & _ & Ht & ->).
    destruct (proj1 (alertConfig_tag t) Ht) as [e He].
    exists t, e, (alert_of e body). split_and!; [|done|done|].
    + unfold block_captures.
      by rewrite lookup_insert_ne, lookup_insert_ne, lookup_insert_eq.
    + by apply replacer_block.
  - apply transform_total.
  - intros h data o content Hd Hc. unfold after_post_render.
    rewrite Hd, Hc. destruct (transform_total content) as [c' ->]. simpl. eauto.
Qed.

Lemma lookup_never_misses_witness :
  ∃ t e out,
    block_captures [] (js "CAUTION") (js " hot") [] !! 2%nat = Some t
    ∧ t ∈ pattern_tags ∧ alertConfig !! t = Some e
    ∧ replacer (block_captures [] (js "CAUTION") (js " hot") []) = Normal out.
Proof.
  apply (proj1 (proj2 lookup_never_misses)
           (js "<blockquote><p>[!CAUTION] hot</p></blockquote> and more")
           (block_captures [] (js "CAUTION") (js " hot") [])
           (js " and more")).
  apply (match_here_block [] (js "CAUTION") (js " hot") [] (js " and more"));
    [reflexivity | reflexivity | | reflexivity].
  apply list_elem_of_In. simpl. tauto.
Defined.

(** * Further properties of the script *)

(** ** Where a match ends *)

Section ShortestBody.
Implicit Types (s w t body rest tail : list N) (caps : gmap nat (list N)).

Lemma skip_gap_split s : ∃ g, gap g = true ∧ s = g ++ skip_gap s.
Proof.
  induction s as [|c s (g & Hg & IH)]; [by exists []|]. simpl.
  destruct (class_matches gap_class c) eqn:Hc; [|by exists []].
  exists (c :: g). split; [unfold gap in *; simpl; by rewrite Hc|].
  simpl. by rewrite <- IH.
Qed.

Lemma skip_gap_app g l s :
  gap g = true → skip_gap (g ++ (0x3C :: l) ++ s) = (0x3C :: l) ++ s.
Proof.
  intros Hg%gap_Forall. induction Hg as [|c g Hc _ IH]; [done|].
  simpl. by rewrite Hc.
Qed.

(** [closes] says what it should. *)
Lemma closes_spec s :
  closes s = true
  ↔ ∃ g tail, gap g = true ∧ s = js "</p>" ++ g ++ js "</blockquote>" ++ tail.
Proof.
  unfold closes. rewrite andb_true_iff. split.
  - intros [H1 H2]. apply starts_with_drop in H1, H2.
    destruct (skip_gap_split (drop 4 s)) as (g & Hg & Hs).
    exists g, (drop (length (js "</blockquote>")) (skip_gap (drop 4 s))).
    split; [done|]. rewrite <- H2. by rewrite <- Hs.
  - intros (g & tail & Hg & ->). split; [apply starts_with_app|].
    rewrite drop_app_length'; [|done].
    change (js "</blockquote>") with (0x3C :: js "/blockquote>").
    rewrite skip_gap_app by done. apply starts_with_app.
Qed.

Lemma no_close_inside_spec body tail :
  no_close_inside body tail = true
  ↔ ∀ a c v, body = a ++ c :: v → closes (c :: v ++ tail) = false.
Proof.
  induction body as [|x body IH]; simpl.
  - split; [|done]. intros _ [|??] ?? ?; discriminate.
  - rewrite andb_true_iff, negb_true_iff, IH. split.
    + intros [H1 H2] [|y a] c v E; simpl in E.
      * by injection E as <- <-.
      * injection E as _ E. by apply (H2 a c v).
    + intros H. split; [by apply (H [] x body)|].
      intros a c v ->. by apply (H (x :: a) c v).
Qed.

(** The lazy star hands over at the first place where the rest succeeds. *)
Lemma star_lazy_least cc s k res :
  star_lazy cc s k = Some res →
  ∃ u s', s = u ++ s' ∧ k s' = Some res
          ∧ ∀ a c v, u = a ++ c :: v → k (c :: v ++ s') = None.
Proof.
  induction s as [|x s IH]; simpl.
  - destruct (k []) eqn:E; [|discriminate]. intros [= ->].
    exists [], []. split_and!; [done..|]. by intros [|??] ?? ?.
  - destruct (k (x :: s)) eqn:E.
    + intros [= ->]. exists [], (x :: s). split_and!; [done..|].
      by intros [|??] ?? ?.
    + destruct (class_matches cc x); [|discriminate].
      intros (u & s' & -> & Hk & Hu)%IH. exists (x :: u), s'.
      split_and!; [done..|]. intros [|y a] c v Ea; simpl in Ea.
      * by injection Ea as <- <-.
      * injection Ea as _ ->. by apply (Hu a c v).
Qed.

(** The closing part of the pattern, as a continuation: it succeeds exactly
    on the texts that [closes] accepts. *)
Lemma closing_Some x caps kf res :
  run (lit (js "</p>")) x caps
    (λ s1 caps', star_greedy gap_class s1
       (λ s2, run (lit (js "</blockquote>")) s2 caps' kf)) = Some res →
  closes x = true.
Proof.
  intros (s1 & -> & H)%run_lit_Some.
  apply star_greedy_sound in H as (g & s2 & -> & Hg%gap_Forall & H).
  apply run_lit_Some in H as (s3 & -> & _).
  apply closes_spec. by exists g, s3.
Qed.

Lemma closing_None x caps kf :
  (∀ s c, is_Some (kf s c)) →
  run (lit (js "</p>")) x caps
    (λ s1 caps', star_greedy gap_class s1
       (λ s2, run (lit (js "</blockquote>")) s2 caps' kf)) = None →
  closes x = false.
Proof.
  intros Hkf H. destruct (closes x) eqn:E; [exfalso|done].
  apply closes_spec in E as (g & tail & Hg & ->).
  rewrite run_lit_app in H.
  change (js "</blockquote>") with (0x3C :: js "/blockquote>") in H.
  rewrite star_greedy_gap, run_lit_app in H by done.
  destruct (Hkf tail caps) as [y Hy]. congruence.
Qed.

Lemma match_here_least s caps rest :
  match_here regex s = Some (caps, rest) →
  ∃ w t body w',
    s = block w t body w' ++ rest ∧ gap w = true ∧ gap w' = true
    ∧ t ∈ pattern_tags ∧ caps = block_captures w t body w'
    ∧ no_close_inside body (js "</p>" ++ w' ++ js "</blockquote>" ++ rest)
      = true.
Proof.
  unfold match_here, regex. cbn [run]. intros H.
  apply run_lit_Some in H as (s1 & Hs1 & H).
  apply star_greedy_sound in H as (w & s2 & -> & Hw & H).
  apply run_lit_Some in H as (s3 & -> & H).
  apply run_literals_Some in H as (t & s4 & Ht & -> & H).
  destruct s4 as [|x s5]; [discriminate|].
  destruct (x =? 0x5D) eqn:Ex; [|discriminate]. apply N.eqb_eq in Ex as ->.
  apply star_lazy_least in H as (body & s6 & -> & H & Hleast).
  assert (Hfirst : no_close_inside body s6 = true).
  { apply no_close_inside_spec. intros a c v Hbody.
    eapply closing_None; [|exact (Hleast a c v Hbody)]. by eauto. }
  apply run_lit_Some in H as (s7 & -> & H).
  apply star_greedy_sound in H as (w' & s8 & -> & Hw' & H).
  apply run_lit_Some in H as (s9 & -> & H).
  pose proof (f_equal (from_option fst ∅) H) as Hcaps.
  pose proof (f_equal (from_option snd []) H) as Hrest.
  cbn [from_option fst snd] in Hcaps, Hrest. clear H Hleast. subst caps rest.
  assert (Hs : s = block w t body w' ++ s9).
  { rewrite Hs1. unfold block. by rewrite <- !app_assoc. }
  exists w, t, body, w'. split_and!; [done | by apply gap_Forall
    | by apply gap_Forall | done | | done].
  unfold block_captures.
  f_equal; [by apply take_split|].
  f_equal; [by apply take_split|].
  f_equal; [by apply take_split|].
  f_equal. apply take_split. rewrite Hs1. by rewrite <- !app_assoc.
Qed.

Lemma match_here_block_least w t body w' rest :
  gap w = true → gap w' = true → t ∈ pattern_tags →
  no_close_inside body (js "</p>" ++ w' ++ js "</blockquote>" ++ rest) = true →
  match_here regex (block w t body w' ++ rest)
  = Some (block_captures w t body w', rest).
Proof.
  intros Hw Hw' Ht Hfirst.
  remember (block w t body w' ++ rest) as s eqn:Hs.
  unfold match_here, regex. cbn [run].
  assert (Hs' := Hs). unfold block in Hs'. rewrite <- !app_assoc in Hs'.
  rewrite Hs' at 1. rewrite run_lit_app.
  change (js "<p>[!") with (0x3C :: js "p>[!").
  rewrite star_greedy_gap by done. rewrite run_lit_app.
  rewrite run_tag_here by done.
  set (tail := js "</p>" ++ w' ++ js "</blockquote>" ++ rest) in *.
  change (js "]" ++ body ++ tail) with (0x5D :: body ++ tail).
  cbv beta iota. rewrite N.eqb_refl.
  apply star_lazy_first.
  + intros a c v Hbody.
    rewrite no_close_inside_spec in Hfirst. specialize (Hfirst a c v Hbody).
    match goal with |- ?k = None => destruct k eqn:E; [|done] end.
    apply closing_Some in E. congruence.
  + unfold tail. rewrite run_lit_app.
    change (js "</blockquote>") with (0x3C :: js "/blockquote>").
    rewrite star_greedy_gap by done. rewrite run_lit_app.
    f_equal. f_equal. unfold block_captures.
    f_equal; [by apply take_split|].
    f_equal; [by apply take_split|].
    f_equal; [by apply take_split|].
    f_equal. apply take_split. rewrite Hs'. by rewrite <- !app_assoc.
Qed.

(** X1.  A match is a blockquote alert whose body is the shortest possible:
    the closing part of the pattern starts nowhere inside the body.  So the
    match ends at the first [</p>] that a gap and [</blockquote>] follow, and
    the groups are the opening, the tag and that body. *)
Theorem match_ends_at_first_close s caps rest :
  match_here regex s = Some (caps, rest)
  ↔ ∃ w t body w',
      s = block w t body w' ++ rest ∧ gap w = true ∧ gap w' = true
      ∧ t ∈ pattern_tags ∧ caps = block_captures w t body w'
      ∧ no_close_inside body (js "</p>" ++ w' ++ js "</blockquote>" ++ rest)
        = true.
Proof.
  split; [apply match_here_least|].
  intros (w & t & body & w' & -> & Hw & Hw' & Ht & -> & Hfirst).
  by apply match_here_block_least.
Qed.

End ShortestBody.

Lemma match_ends_at_first_close_witness :
  match_here regex
    (js "<blockquote><p>[!NOTE] a</p></blockquote><blockquote><p>[!TIP] b</p></blockquote>")
  = Some (block_captures [] (js "NOTE") (js " a") [],
          js "<blockquote><p>[!TIP] b</p></blockquote>").
Proof.
  apply (proj2 (match_ends_at_first_close _ _ _)).
  exists [], (js "NOTE"), (js " a"), [].
  split_and!; [reflexivity | reflexivity | reflexivity | | reflexivity
              | reflexivity].
  apply list_elem_of_In. simpl. tauto.
Defined.

(** X2.  The container takes the body up to the first closing part, and the
    text behind that closing part is transformed on its own.  A blockquote
    nested in an alert therefore ends the alert at the inner
    [</blockquote>]; the outer one stays behind the container. *)
Theorem alert_ends_at_first_close (w t body w' rest : list N) (e : alert_entry) :
  gap w = true → gap w' = true → alertConfig !! t = Some e →
  no_close_inside body (js "</p>" ++ w' ++ js "</blockquote>" ++ rest) = true →
  ∃ tl, transform rest = Normal tl
        ∧ transform (block w t body w' ++ rest)
          = Normal (alert_of e body ++ tl).
Proof.
  intros Hw Hw' He Hfirst. destruct (transform_total rest) as [tl Htl].
  exists tl. split; [done|]. rewrite transform_unfold.
  assert (Ht : t ∈ pattern_tags) by (apply alertConfig_tag; eauto).
  assert (Hm : match_here regex (block w t body w' ++ rest)
               = Some (block_captures w t body w', rest)).
  { by apply match_here_block_least. }
  rewrite (exec_here _ _ _ _ Hm), (replacer_block _ _ _ _ _ He), Htl.
  reflexivity.
Qed.

Lemma alert_ends_at_first_close_witness :
  transform (js "<blockquote><p>[!NOTE] a</p><blockquote><p>[!DANGER] x</p></blockquote></blockquote>")
  = Normal (alert_html (js "is-info")
              (icon_label "alert-circle-outline" "Note")
              (js "<p> a</p><blockquote><p>[!DANGER] x</p>")
            ++ js "</blockquote>").
Proof.
  destruct (alert_ends_at_first_close [] (js "NOTE")
              (js " a</p><blockquote><p>[!DANGER] x") [] (js "</blockquote>")
              (AlertEntry (js "is-info") (icon_label "alert-circle-outline" "Note"))
              eq_refl eq_refl eq_refl eq_refl) as (tl & Htl & H).
  injection Htl as <-. exact H.
Defined.

(** ** Lines *)

Section MoreLines.
Implicit Types (s sep a b l rest : list N).

Lemma starts_with_app_l p u v :
  starts_with p u = true → starts_with p (u ++ v) = true.
Proof.
  intros [t ->]%starts_with_spec. rewrite <- app_assoc. apply starts_with_app.
Qed.

Lemma index_of_before sep s a b :
  sep ≠ [] → index_of sep s = Some (a, b) → lacks sep a.
Proof.
  intros Hsep. revert a. induction s as [|c s IH]; intros a; simpl.
  - destruct (starts_with sep []); [|discriminate].
    intros [= <- <-]. by apply lacks_nil.
  - destruct (starts_with sep (c :: s)) eqn:E.
    + intros [= <- <-]. by apply lacks_nil.
    + destruct (index_of sep s) as [[a' b']|] eqn:E'; [|discriminate].
      simpl. intros [= <- <-]. apply lacks_cons; [|by apply IH].
      destruct (starts_with sep (c :: a')) eqn:Ea; [|done].
      apply index_of_Some in E'. subst s.
      pose proof (starts_with_app_l sep (c :: a') (sep ++ b') Ea) as Ec.
      simpl in E, Ec. congruence.
Qed.

Lemma split_pieces_lack sep s l :
  sep ≠ [] → l ∈ split sep s → lacks sep l.
Proof.
  intros Hsep. remember (length s) as n eqn:Hn. revert s Hn.
  induction (lt_wf n) as [n _ IH]. intros s ->.
  rewrite split_unfold by done.
  destruct (index_of sep s) as [[a b]|] eqn:E.
  - intros [->|Hl]%elem_of_cons; [by eapply index_of_before|].
    eapply (IH (length b)); [|done|done].
    apply index_of_Some in E. subst s. rewrite !length_app.
    assert (length sep ≠ 0)%nat by (destruct sep; simpl; congruence). lia.
  - by intros ->%list_elem_of_singleton.
Qed.

Lemma body_lines_subset p3 l :
  l ∈ body_lines p3 → l ∈ split (js "<br>") p3.
Proof.
  unfold body_lines. destruct (split (js "<br>") p3) as [|[|x y] rest]; [done| |done].
  intros H. by apply list_elem_of_further.
Qed.

End MoreLines.

(** X3.  Only one empty line is dropped.  A body that begins with two line
    breaks keeps the second empty line: the container opens with an empty
    paragraph, followed by one paragraph per remaining line. *)
Theorem second_break_kept (w t rest w' : list N) (e : alert_entry) :
  alertConfig !! t = Some e →
  body_lines (js "<br>" ++ js "<br>" ++ rest) = [] :: split (js "<br>") rest
  ∧ replacer (block_captures w t (js "<br>" ++ js "<br>" ++ rest) w')
    = Normal (alert_html (className e) (ja e)
                (js "<p></p>" ++ concat (paragraph <$> split (js "<br>") rest))).
Proof.
  intros He.
  assert (Hl : body_lines (js "<br>" ++ js "<br>" ++ rest)
               = [] :: split (js "<br>") rest).
  { rewrite body_lines_break. apply split_here, br_not_nil. }
  split; [done|]. rewrite (replacer_block _ _ _ _ _ He). unfold alert_of.
  rewrite Hl, paragraphs_concat by done. reflexivity.
Qed.

Lemma second_break_kept_witness :
  replacer (block_captures [] (js "TIP") (js "<br><br>late") [])
  = Normal (alert_html (js "is-success") (icon_label "leaf-outline" "Tip")
              (js "<p></p><p>late</p>")).
Proof.
  exact (proj2 (second_break_kept [] (js "TIP") (js "late") []
                  (AlertEntry (js "is-success") (icon_label "leaf-outline" "Tip"))
                  eq_refl)).
Defined.

(** X4.  The lines of a body are cut at every [<br>]: no line that becomes
    a paragraph contains [<br>], and the pieces of [split], joined by [<br>]
    again, are the body. *)
Theorem lines_lack_break (p3 l : list N) :
  l ∈ body_lines p3 →
  lacks (js "<br>") l ∧ join (js "<br>") (split (js "<br>") p3) = p3.
Proof.
  intros Hl%body_lines_subset. split.
  - eapply split_pieces_lack; [apply br_not_nil | done].
  - apply join_split, br_not_nil.
Qed.

Lemma lines_lack_break_witness :
  lacks (js "<br>") (js "two <b>bold</b>")
  ∧ join (js "<br>") (split (js "<br>") (js "<br>one<br>two <b>bold</b>"))
    = js "<br>one<br>two <b>bold</b>".
Proof.
  apply (lines_lack_break (js "<br>one<br>two <b>bold</b>") (js "two <b>bold</b>")).
  vm_compute. apply list_elem_of_further, list_elem_of_here.
Defined.

(** ** What the transform leaves *)

(** X5.  No alert is left behind.  Every document is a sequence of kept
    texts and blockquote alerts with these properties: the output repeats
    the kept texts and has a container in place of each alert, and no
    blockquote alert starts inside a kept text, the text behind it taken
    into account. *)
Theorem nothing_left_behind (doc : list N) :
  ∃ segs,
    doc = concat (segment_source <$> segs)
    ∧ transform doc = Normal (concat (segment_output <$> segs))
    ∧ Forall segment_ok segs
    ∧ nothing_left segs.
Proof.
  remember (length doc) as n eqn:Hn. revert doc Hn.
  induction (lt_wf n) as [n _ IH]. intros doc ->.
  rewrite transform_unfold.
  destruct (exec regex doc) as [[[pre caps] rest]|] eqn:E.
  - apply exec_Some in E as (u & -> & Hu & Hpre).
    destruct (match_here_regex_inv _ _ _ Hu)
      as (w & t & body & w' & Hblock & Hw & Hw' & Ht & ->).
    apply app_inv_tail in Hblock as ->.
    apply alertConfig_tag in Ht as [e He].
    destruct (IH (length rest)) with (doc := rest)
      as (segs & Hsrc & Hout & Hok & Hleft); [|done|].
    { rewrite !length_app, block_cons. simpl. lia. }
    exists (Kept pre :: Alert w t body w' e :: segs). split_and!.
    + rewrite Hsrc at 1. reflexivity.
    + rewrite (replacer_block _ _ _ _ _ He), Hout. reflexivity.
    + by repeat constructor.
    + split; [|done]. intros a v Ha Hv [x Hx]%alert_shape_matches.
      change (concat (segment_source <$> Alert w t body w' e :: segs))
        with (block w t body w' ++ concat (segment_source <$> segs)) in Hx.
      rewrite <- Hsrc in Hx. by rewrite (Hpre a v Ha Hv) in Hx.
  - exists [Kept doc]. split_and!.
    + simpl. by rewrite app_nil_r.
    + simpl. by rewrite app_nil_r.
    + by repeat constructor.
    + split; [|done]. intros a v Ha _ [x Hx]%alert_shape_matches.
      simpl in Hx. rewrite app_nil_r in Hx. rewrite exec_None in E.
      by rewrite (E a v Ha) in Hx.
Qed.

Section Criteria.
Implicit Types (doc p a b : list N).

Lemma occurs_not_lacks p doc a b : doc = a ++ p ++ b → ¬ lacks p doc.
Proof.
  intros Hdoc Hl. pose proof (index_of_None _ _ Hl a (p ++ b) Hdoc) as H.
  by rewrite starts_with_app in H.
Qed.

End Criteria.

(** X6.  Four quick ways to know that a document passes through unchanged:
    it has no [<blockquote>], or no [<p>[!], or no [</p>], or no
    [</blockquote>].  Every match contains all four. *)
Theorem lacking_literal_unchanged (doc : list N) :
  lacks (js "<blockquote>") doc ∨ lacks (js "<p>[!") doc
  ∨ lacks (js "</p>") doc ∨ lacks (js "</blockquote>") doc →
  transform doc = Normal doc.
Proof.
  intros H. apply transform_id.
  destruct (exec regex doc) as [[[pre caps] rest]|] eqn:E; [exfalso|done].
  apply exec_Some in E as (u & -> & Hu & _).
  apply match_here_regex_inv in Hu as (w & t & body & w' & Hblock & _).
  apply app_inv_tail in Hblock as ->.
  destruct H as [H|[H|[H|H]]]; revert H.
  - apply (occurs_not_lacks _ _ pre
      (w ++ js "<p>[!" ++ t ++ js "]" ++ body ++ js "</p>" ++ w'
       ++ js "</blockquote>" ++ rest)).
    unfold block. by rewrite <- !app_assoc.
  - apply (occurs_not_lacks _ _ (pre ++ js "<blockquote>" ++ w)
      (t ++ js "]" ++ body ++ js "</p>" ++ w' ++ js "</blockquote>" ++ rest)).
    unfold block. by rewrite <- !app_assoc.
  - apply (occurs_not_lacks _ _
      (pre ++ js "<blockquote>" ++ w ++ js "<p>[!" ++ t ++ js "]" ++ body)
      (w' ++ js "</blockquote>" ++ rest)).
    unfold block. by rewrite <- !app_assoc.
  - apply (occurs_not_lacks _ _
      (pre ++ js "<blockquote>" ++ w ++ js "<p>[!" ++ t ++ js "]" ++ body
       ++ js "</p>" ++ w') rest).
    unfold block. by rewrite <- !app_assoc.
Qed.

Lemma lacking_literal_unchanged_witness :
  transform (js "<blockquote><p>[!NOTE] never closed</p>")
  = Normal (js "<blockquote><p>[!NOTE] never closed</p>").
Proof.
  apply lacking_literal_unchanged. right. right. right. reflexivity.
Defined.

(** ** The filter on several posts *)

(** X7.  The filter works on one post at a time: run on two different posts
    of a heap, in either order, it leaves the same heap. *)
Theorem filter_posts_commute (h : gmap nat (gmap (list N) value))
    (l1 l2 : nat) (o1 o2 : gmap (list N) value) (c1 c2 : list N) :
  l1 ≠ l2 → h !! l1 = Some o1 → h !! l2 = Some o2 →
  o1 !! js "content" = Some (VString c1) →
  o2 !! js "content" = Some (VString c2) →
  ∃ h1 h2 h',
    after_post_render l1 h = Normal (VObject l1, h1)
    ∧ after_post_render l2 h1 = Normal (VObject l2, h')
    ∧ after_post_render l2 h = Normal (VObject l2, h2)
    ∧ after_post_render l1 h2 = Normal (VObject l1, h').
Proof.
  intros Hne H1 H2 Hc1 Hc2.
  destruct (transform_total c1) as [c1' Ht1].
  destruct (transform_total c2) as [c2' Ht2].
  exists (<[l1 := <[js "content" := VString c1']> o1]> h),
    (<[l2 := <[js "content" := VString c2']> o2]> h),
    (<[l2 := <[js "content" := VString c2']> o2]>
       (<[l1 := <[js "content" := VString c1']> o1]> h)).
  unfold after_post_render. split_and!.
  - by rewrite H1, Hc1, Ht1.
  - rewrite lookup_insert_ne by done. by rewrite H2, Hc2, Ht2.
  - by rewrite H2, Hc2, Ht2.
  - rewrite lookup_insert_ne by done. rewrite H1, Hc1, Ht1. simpl.
    by rewrite insert_insert_ne.
Qed.

Lemma filter_posts_commute_witness :
  ∃ h1 h2 h',
    after_post_render 7 sample_heap = Normal (VObject 7, h1)
    ∧ after_post_render 8 h1 = Normal (VObject 8, h')
    ∧ after_post_render 8 sample_heap = Normal (VObject 8, h2)
    ∧ after_post_render 7 h2 = Normal (VObject 7, h').
Proof.
  apply (filter_posts_commute sample_heap 7%nat 8%nat sample_post
           (<[js "content" := VString (js "other")]> ∅)
           (js "<blockquote><p>[!TIP] x</p></blockquote>") (js "other"));
    [discriminate | reflexivity..].
Defined.

(** ** The table *)

Lemma alertConfig_entries (t : list N) (e : alert_entry) :
  alertConfig !! t = Some e →
  (t, e) ∈ [ (js "NOTE", AlertEntry (js "is-info")
                (icon_label "alert-circle-outline" "Note"));
             (js "TIP", AlertEntry (js "is-success")
                (icon_label "leaf-outline" "Tip"));
             (js "IMPORTANT", AlertEntry (js "is-important")
                (icon_label "hand-right-outline" "Important"));
             (js "CAUTION", AlertEntry (js "is-caution")
                (icon_label "skull-outline" "Caution"));
             (js "WARNING", AlertEntry (js "is-warning")
                (icon_label "warning-outline" "Warning")) ].
Proof.
  unfold alertConfig. intros H.
  repeat (apply lookup_insert_Some in H as [[<- <-]|[_ H]];
          [by repeat ((by apply list_elem_of_here) || apply list_elem_of_further)|]).
  by rewrite lookup_empty in H.
Qed.

(** X8.  The table tells the five kinds apart: two tags with the same style
    class, or with the same label, are the same tag. *)
Theorem table_separates_tags (t1 t2 : list N) (e1 e2 : alert_entry) :
  alertConfig !! t1 = Some e1 → alertConfig !! t2 = Some e2 →
  className e1 = className e2 ∨ ja e1 = ja e2 → t1 = t2.
Proof.
  intros H1%alertConfig_entries%list_elem_of_In
         H2%alertConfig_entries%list_elem_of_In H.
  simpl in H1, H2.
  destruct H1 as [[= <- <-]|[[= <- <-]|[[= <- <-]|[[= <- <-]|[[= <- <-]|[]]]]]];
  destruct H2 as [[= <- <-]|[[= <- <-]|[[= <- <-]|[[= <- <-]|[[= <- <-]|[]]]]]];
    try reflexivity; exfalso; vm_compute in H; destruct H; discriminate.
Qed.

Lemma table_separates_tags_witness : js "NOTE" = js "NOTE".
Proof.
  exact (table_separates_tags (js "NOTE") (js "NOTE")
           (AlertEntry (js "is-info") (icon_label "alert-circle-outline" "Note"))
           (AlertEntry (js "is-info") (icon_label "alert-circle-outline" "Note"))
           eq_refl eq_refl (or_introl eq_refl)).
Defined.
